(** * node-knife4j-ui: the Knife4jDoc middleware over a JavaScript object heap

    The repository consists of one class, [Knife4jDoc], whose two methods
    [serveExpress] and [serveKoa] build request handlers.  Two versions of
    the class are modelled: the current one (src/index.ts: service
    discovery plus one deep-copied document) in module [Current], and the
    earlier one (tag-grouped discovery that writes into the stored document)
    in module [Legacy].

    JavaScript objects are references into a heap, so that aliasing,
    in-place assignment ([swaggerDocs.paths = groupPaths]) and copying
    ([JSON.parse(JSON.stringify(..))]) are told apart. *)

From stdpp Require Import pretty strings gmap fin_maps numbers.
From stdpp Require Import list.

Open Scope string_scope.
Open Scope nat_scope.

(** ** Values and the object heap *)

Abbreviation loc := nat (only parsing).

(** Runtime values.  Numbers are the integers among the finite doubles;
    functions, symbols, accessors and prototypes are outside the model. *)
Inductive val :=
  | VUndefined
  | VNull
  | VBool (b : bool)
  | VNum (z : Z)
  | VStr (s : string)
  | VRef (l : loc).

Global Instance val_eq_dec : EqDecision val.
Proof. solve_decision. Defined.

(** An object is either a plain object, its own enumerable properties in
    enumeration order (names pairwise distinct, as in every JavaScript
    object; names that are array indices are assumed to be listed in
    the engine's order), or an array. *)
Inductive object :=
  | OObj (ps : list (string * val))
  | OArr (vs : list val).

Abbreviation heap := (gmap nat object) (only parsing).

Definition alloc (o : object) (h : heap) : val * heap :=
  let l := fresh (dom h) in (VRef l, <[l := o]> h).
Global Arguments alloc : simpl never.

(** ** Deep values

    A [tree] is what a value looks like when all references reachable from
    it are followed: the notion of deep equality, and the abstract syntax
    of JSON text once [TUndef] is pruned. *)
#[warnings="-register-all"]
Inductive tree :=
  | TUndef
  | TNull
  | TBool (b : bool)
  | TNum (z : Z)
  | TStr (s : string)
  | TArr (ts : list tree)
  | TObj (fs : list (string * tree)).

Definition children (o : object) : list val :=
  match o with
  | OObj ps => ps.*2
  | OArr vs => vs
  end.

Definition rebuild (o : object) (ts : list tree) : tree :=
  match o with
  | OObj ps => TObj (zip (ps.*1) ts)
  | OArr _ => TArr ts
  end.

(** [snapshot n h v] follows references to depth [n]; [None] when a
    reference is followed deeper than [n] or dangles. *)
Fixpoint snapshot (n : nat) (h : heap) (v : val) : option tree :=
  match v with
  | VUndefined => Some TUndef
  | VNull => Some TNull
  | VBool b => Some (TBool b)
  | VNum z => Some (TNum z)
  | VStr s => Some (TStr s)
  | VRef l =>
      match n with
      | O => None
      | S n' =>
          match h !! l with
          | None => None
          | Some o =>
              match mapM (snapshot n' h) (children o) with
              | None => None
              | Some ts => Some (rebuild o ts)
              end
          end
      end
  end.

(** [v] has the deep value [t] in [h]. *)
Definition deep_value (h : heap) (v : val) (t : tree) : Prop :=
  ∃ n, snapshot n h v = Some t.

(** Deep equality of two values, each read in its own heap. *)
Definition deep_equal (h1 : heap) (v1 : val) (h2 : heap) (v2 : val) : Prop :=
  ∃ t, deep_value h1 v1 t ∧ deep_value h2 v2 t.

(** ** JSON.stringify and JSON.parse *)

Definition is_undef (t : tree) : bool :=
  match t with TUndef => true | _ => false end.

Definition null_if_undef (t : tree) : tree :=
  match t with TUndef => TNull | _ => t end.

(** What JSON.stringify keeps of a deep value: a property whose value is
    undefined is skipped, an undefined array element becomes null. *)
Fixpoint prune (t : tree) : tree :=
  match t with
  | TArr ts => TArr (map (λ t', null_if_undef (prune t')) ts)
  | TObj fs =>
      TObj (List.filter (λ kt, negb (is_undef (snd kt)))
              (map (λ kt, (fst kt, prune (snd kt))) fs))
  | _ => t
  end.

(** JSON.stringify.  The result is the JSON text in abstract syntax
    ([TUndef] at the top: the call returned undefined); [None] is the
    TypeError for a circular structure.  A heap of [size h] objects has
    no acyclic chain of references longer than [size h]. *)
Definition JSON_stringify (h : heap) (v : val) : option tree :=
  prune <$> snapshot (S (size h)) h v.

(** Left-to-right traversal of a list by an allocating function. *)
Section thread.
Context {A B : Type} (f : A → heap → B * heap).

Fixpoint thread (xs : list A) (h : heap) : list B * heap :=
  match xs with
  | [] => ([], h)
  | x :: xs' =>
      let '(y, h1) := f x h in
      let '(ys, h2) := thread xs' h1 in (y :: ys, h2)
  end.
End thread.

(** Allocation of the value a JSON text denotes. *)
Fixpoint build (t : tree) (h : heap) : val * heap :=
  match t with
  | TUndef => (VUndefined, h)
  | TNull => (VNull, h)
  | TBool b => (VBool b, h)
  | TNum z => (VNum z, h)
  | TStr s => (VStr s, h)
  | TArr ts =>
      let '(vs, h1) := thread build ts h in
      alloc (OArr vs) h1
  | TObj fs =>
      let '(vs, h1) := thread (λ kt, build (snd kt)) fs h in
      alloc (OObj (zip (fs.*1) vs)) h1
  end.

(** JSON.parse of the result of JSON.stringify; [None] is the SyntaxError
    raised when the argument is undefined. *)
Definition JSON_parse (t : tree) (h : heap) : option (val * heap) :=
  if is_undef t then None else Some (build t h).

(** [extends h h' hn]: [h'] is [h] together with the new objects [hn]. *)
Definition extends (h h' hn : heap) : Prop := h' = h ∪ hn ∧ h ##ₘ hn.

(** [f x] only allocates, and what it returns has the deep value [g x]
    within the objects it allocated. *)
Definition allocates {A : Type} (f : A → heap → val * heap) (g : A → tree)
    (x : A) : Prop :=
  ∀ h v h', f x h = (v, h') → ∃ hn, extends h h' hn ∧ deep_value hn v (g x).

(** [v] is a JSON-serializable document of content [t]: following the
    references from [v] comes to an end, and JSON.stringify drops nothing
    of what is found. *)
Definition json_serializable (h : heap) (v : val) (t : tree) : Prop :=
  deep_value h v t ∧ prune t = t.

(** ** JSON text *)

Definition quote : string := String (Ascii.ascii_of_nat 34) "".
Definition backslash : string := String (Ascii.ascii_of_nat 92) "".

Definition hex_digit (n : nat) : string :=
  String.substring n 1 "0123456789abcdef".

Definition escape_char (c : Ascii.ascii) : string :=
  let n := Ascii.nat_of_ascii c in
  if n =? 34 then backslash ++ quote
  else if n =? 92 then backslash ++ backslash
  else if n =? 8 then backslash ++ "b"
  else if n =? 9 then backslash ++ "t"
  else if n =? 10 then backslash ++ "n"
  else if n =? 12 then backslash ++ "f"
  else if n =? 13 then backslash ++ "r"
  else if n <? 32 then
    backslash ++ "u00" ++ hex_digit (n / 16) ++ hex_digit (n mod 16)
  else String c "".

Fixpoint escape (s : string) : string :=
  match s with
  | EmptyString => ""
  | String c s' => escape_char c ++ escape s'
  end.

(** The characters JSON.stringify writes for a pruned deep value. *)
Fixpoint render (t : tree) : string :=
  match t with
  | TUndef => ""
  | TNull => "null"
  | TBool b => if b then "true" else "false"
  | TNum z => pretty z
  | TStr s => quote ++ escape s ++ quote
  | TArr ts => "[" ++ String.concat "," (map render ts) ++ "]"
  | TObj fs =>
      "{" ++ String.concat ","
               (map (λ kt, quote ++ escape (fst kt) ++ quote ++ ":"
                             ++ render (snd kt)) fs) ++ "}"
  end.

(** ** Operators of the language *)

Definition is_object (v : val) : bool :=
  match v with VRef _ => true | _ => false end.

Definition truthy (v : val) : bool :=
  match v with
  | VUndefined | VNull => false
  | VBool b => b
  | VNum z => negb (z =? 0)%Z
  | VStr s => negb (String.eqb s "")
  | VRef _ => true
  end.

(** [typeof v === "object"] *)
Definition typeof_object (v : val) : bool :=
  match v with
  | VNull | VRef _ => true
  | _ => false
  end.

(** ** The host: process, request, and the two frameworks' responses *)

Record process := { cwd : string }.

(** path.join for a normalised absolute directory and a relative path. *)
Definition path_join (dir rel : string) : string :=
  if String.eqb dir "/" then dir ++ rel else dir ++ "/" ++ rel.

(** An incoming request: the string both frameworks expose as [url], and
    the parsed query parameters. *)
Record request := { url : string; query : list (string * string) }.

(** What a handler did: it returned, having called [next()] or not, or it
    threw. *)
Inductive outcome (R : Type) :=
  | Returned (r : R) (next_called : bool) (h : heap)
  | Threw.
Arguments Returned {R} r next_called h.
Arguments Threw {R}.

(** Express: the response object.  [res.json(v)] serialises [v] at the
    call; [json_arg] keeps the value it was given. *)
Record Response := {
  statusCode : nat;
  headers : list (string * string);
  json_arg : option val;
  payload : option tree;
}.

Definition fresh_response : Response :=
  {| statusCode := 200; headers := []; json_arg := None; payload := None |}.

Definition res_status (code : nat) (res : Response) : Response :=
  {| statusCode := code; headers := headers res;
     json_arg := json_arg res; payload := payload res |}.

Definition res_setHeader (k v : string) (res : Response) : Response :=
  {| statusCode := statusCode res;
     headers := (k, v) :: List.filter (λ kv, negb (String.eqb (fst kv) k))
                            (headers res);
     json_arg := json_arg res; payload := payload res |}.

Definition sent (v : val) (text : tree) (res : Response) : Response :=
  {| statusCode := statusCode res;
     headers :=
       if existsb (λ kv, String.eqb (fst kv) "Content-Type") (headers res)
       then headers res
       else ("Content-Type", "application/json") :: headers res;
     json_arg := Some v; payload := Some text |}.

Definition res_json (v : val) (res : Response) (h : heap) : outcome Response :=
  match JSON_stringify h v with
  | None => Threw
  | Some text => Returned (sent v text res) false h
  end.

(** Koa: the context.  Assigning an object to [ctx.body] makes the status
    200 unless a status was assigned before; the body is serialised when
    the middleware chain has returned. *)
Record Context := {
  status : nat;
  explicit_status : bool;
  ctx_type : option string;
  body : option val;
}.

Definition fresh_context : Context :=
  {| status := 404; explicit_status := false; ctx_type := None;
     body := None |}.

Definition ctx_set_status (code : nat) (ctx : Context) : Context :=
  {| status := code; explicit_status := true; ctx_type := ctx_type ctx;
     body := body ctx |}.

Definition ctx_set_type (ty : string) (ctx : Context) : Context :=
  {| status := status ctx; explicit_status := explicit_status ctx;
     ctx_type := Some ty; body := body ctx |}.

Definition ctx_set_body (v : val) (ctx : Context) : Context :=
  {| status := if explicit_status ctx then status ctx else 200;
     explicit_status := explicit_status ctx;
     ctx_type :=
       match ctx_type ctx with
       | Some ty => Some ty
       | None => Some "application/json"
       end;
     body := Some v |}.

(** What a client observes. *)
Inductive observation :=
  | Handled (code : nat) (text : tree)
  | Unhandled
  | Failed.

Definition observe_express (o : outcome Response) : observation :=
  match o with
  | Threw => Failed
  | Returned res true _ => Unhandled
  | Returned res false _ =>
      match payload res with
      | Some text => Handled (statusCode res) text
      | None => Unhandled
      end
  end.

Definition observe_koa (o : outcome Context) : observation :=
  match o with
  | Threw => Failed
  | Returned ctx true _ => Unhandled
  | Returned ctx false h =>
      match body ctx with
      | Some v =>
          match JSON_stringify h v with
          | Some text => Handled (status ctx) text
          | None => Failed
          end
      | None => Unhandled
      end
  end.

(** ** The current class (src/index.ts) *)

Module Current.

Record Knife4jDoc := { swaggerJson : val; name : string }.

(** [constructor(swaggerJson = {}, name = "API接口文档")]: a default
    applies when the argument is undefined. *)
Definition new (swaggerJson_arg : val) (name_arg : option string)
    (h : heap) : Knife4jDoc * heap :=
  let name := default "API接口文档" name_arg in
  match swaggerJson_arg with
  | VUndefined =>
      let '(o, h1) := alloc (OObj []) h in
      ({| swaggerJson := o; name := name |}, h1)
  | v => ({| swaggerJson := v; name := name |}, h)
  end.

Definition getSwaggerJson (self : Knife4jDoc) : val := swaggerJson self.

Definition getKnife4jUiPath (proc : process) : string :=
  path_join (cwd proc) "node_modules/node-knife4j-ui/static".

Definition getSwagger (proc : process) : string :=
  path_join (cwd proc) "static/swagger.json".

Definition error_body : object :=
  OObj [("error", VStr "Swagger configuration is not available");
        ("message",
         VStr ("Please check if swaggerJson was properly passed to "
               ++ "Knife4jDoc constructor"))].

Definition service (proc : process) (self : Knife4jDoc) (prefix : string)
    : object :=
  OObj [("name", VStr (name self));
        ("url", VStr (prefix ++ "/swagger.json"));
        ("location", VStr (getSwagger proc));
        ("swaggerVersion", VStr "3.0.0")].

(** The JSON texts of the two literals above. *)
Definition error_text : tree :=
  TObj [("error", TStr "Swagger configuration is not available");
        ("message",
         TStr ("Please check if swaggerJson was properly passed to "
               ++ "Knife4jDoc constructor"))].

Definition services_text (proc : process) (self : Knife4jDoc)
    (prefix : string) : tree :=
  TArr [TObj [("name", TStr (name self));
              ("url", TStr (prefix ++ "/swagger.json"));
              ("location", TStr (getSwagger proc));
              ("swaggerVersion", TStr "3.0.0")]].

(** [serveExpress(prefix)] applied to [(req, res, next)].  The message
    written with console.error is not modelled. *)
Definition serveExpress (proc : process) (self : Knife4jDoc)
    (prefix : string) (req : request) (res : Response) (h : heap)
    : outcome Response :=
  let swaggerJson_ := swaggerJson self in
  if negb (truthy swaggerJson_) || negb (typeof_object swaggerJson_) then
    let '(e, h1) := alloc error_body h in
    res_json e (res_status 500 res) h1
  else
    match JSON_stringify h (swaggerJson self) with
    | None => Threw
    | Some text =>
        match JSON_parse text h with
        | None => Threw
        | Some (swaggerDocs, h1) =>
            if String.eqb (url req) "/services.json" then
              let '(d, h2) := alloc (service proc self prefix) h1 in
              let '(services, h3) := alloc (OArr [d]) h2 in
              res_json services res h3
            else if String.eqb (url req) (prefix ++ "/swagger.json") then
              res_json swaggerDocs res h1
            else Returned res true h1
        end
    end.

(** [serveKoa(prefix)] applied to [(ctx, next)]. *)
Definition serveKoa (proc : process) (self : Knife4jDoc)
    (prefix : string) (req : request) (ctx : Context) (h : heap)
    : outcome Context :=
  let swaggerJson_ := swaggerJson self in
  if negb (truthy swaggerJson_) || negb (typeof_object swaggerJson_) then
    let ctx1 := ctx_set_status 500 ctx in
    let '(e, h1) := alloc error_body h in
    Returned (ctx_set_body e ctx1) false h1
  else
    match JSON_stringify h (swaggerJson self) with
    | None => Threw
    | Some text =>
        match JSON_parse text h with
        | None => Threw
        | Some (swaggerDocs, h1) =>
            if String.eqb (url req) "/services.json" then
              let '(d, h2) := alloc (service proc self prefix) h1 in
              let '(services, h3) := alloc (OArr [d]) h2 in
              Returned (ctx_set_body services ctx) false h3
            else if String.eqb (url req) (prefix ++ "/swagger.json") then
              Returned (ctx_set_body swaggerDocs ctx) false h1
            else Returned ctx true h1
        end
    end.

End Current.

(** ** Property access, enumeration and the array methods the legacy
       handlers call

    [None] is a thrown TypeError.  Inherited properties are functions and
    are not modelled: the names the handlers read ("paths", "tags", "urls",
    and the enumerated ones) are not names of a built-in prototype. *)

Fixpoint assoc_get {A : Type} (ps : list (string * A)) (k : string)
    : option A :=
  match ps with
  | [] => None
  | (k', x) :: ps' => if String.eqb k' k then Some x else assoc_get ps' k
  end.

(** Assignment to a property: in place when the name exists, appended
    otherwise. *)
Fixpoint assoc_set {A : Type} (ps : list (string * A)) (k : string) (x : A)
    : list (string * A) :=
  match ps with
  | [] => [(k, x)]
  | (k', y) :: ps' =>
      if String.eqb k' k then (k, x) :: ps' else (k', y) :: assoc_set ps' k x
  end.

Definition digit_of (c : Ascii.ascii) : option nat :=
  let n := Ascii.nat_of_ascii c in
  if (48 <=? n) && (n <=? 57) then Some (n - 48) else None.

Fixpoint digits_value (s : string) (acc : nat) : option nat :=
  match s with
  | EmptyString => Some acc
  | String c s' =>
      match digit_of c with
      | Some d => digits_value s' (10 * acc + d)
      | None => None
      end
  end.

(** The array index a property name denotes, if it is one. *)
Definition key_index (k : string) : option nat :=
  match k with
  | EmptyString => None
  | String c s' =>
      if (Ascii.nat_of_ascii c =? 48) && negb (String.eqb s' "") then None
      else digits_value k 0
  end.

Definition index_keys (n : nat) : list string := map pretty (seq 0 n).

Definition char_at (s : string) (i : nat) : val :=
  if i <? String.length s then VStr (String.substring i 1 s) else VUndefined.

(** [v[k]] *)
Definition get_prop (h : heap) (v : val) (k : string) : option val :=
  match v with
  | VUndefined | VNull => None
  | VBool _ | VNum _ => Some VUndefined
  | VStr s =>
      if String.eqb k "length" then Some (VNum (Z.of_nat (String.length s)))
      else match key_index k with
           | Some i => Some (char_at s i)
           | None => Some VUndefined
           end
  | VRef l =>
      match h !! l with
      | None => None
      | Some (OObj ps) => Some (default VUndefined (assoc_get ps k))
      | Some (OArr vs) =>
          if String.eqb k "length" then Some (VNum (Z.of_nat (length vs)))
          else match key_index k with
               | Some i => Some (nth i vs VUndefined)
               | None => Some VUndefined
               end
      end
  end.

(** [v[k] = x], for a plain object.  A named property assigned to an
    array is not recorded: arrays carry their elements only, which is all
    JSON.stringify writes of them. *)
Definition set_prop (h : heap) (v : val) (k : string) (x : val)
    : option heap :=
  match v with
  | VUndefined | VNull => None
  | VBool _ | VNum _ | VStr _ => Some h
  | VRef l =>
      match h !! l with
      | None => None
      | Some (OObj ps) => Some (<[l := OObj (assoc_set ps k x)]> h)
      | Some (OArr vs) => Some h
      end
  end.

(** The names [for (const k in v)] goes through. *)
Definition for_in_keys (h : heap) (v : val) : list string :=
  match v with
  | VStr s => index_keys (String.length s)
  | VRef l =>
      match h !! l with
      | Some (OObj ps) => ps.*1
      | Some (OArr vs) => index_keys (length vs)
      | None => []
      end
  | _ => []
  end.

Definition has_index (k : string) (n : nat) : bool :=
  String.eqb k "length"
  || match key_index k with Some i => i <? n | None => false end.

(** [v.hasOwnProperty(k)].  An own property of that name hides the
    method, and calling what is not a function throws. *)
Definition hasOwnProperty (h : heap) (v : val) (k : string) : option bool :=
  match v with
  | VUndefined | VNull => None
  | VBool _ | VNum _ => Some false
  | VStr s => Some (has_index k (String.length s))
  | VRef l =>
      match h !! l with
      | None => None
      | Some (OObj ps) =>
          match assoc_get ps "hasOwnProperty" with
          | Some _ => None
          | None => Some (bool_decide (k ∈ ps.*1))
          end
      | Some (OArr vs) => Some (has_index k (length vs))
      end
  end.

(** The elements [v.forEach(..)] visits: only arrays have the method. *)
Definition forEach_elements (h : heap) (v : val) : option (list val) :=
  match v with
  | VRef l =>
      match h !! l with
      | Some (OArr vs) => Some vs
      | _ => None
      end
  | _ => None
  end.

Fixpoint str_includes (s sub : string) : bool :=
  String.prefix sub s
  || match s with
     | EmptyString => false
     | String _ s' => str_includes s' sub
     end.

(** [v.includes(s)] for a string [s]: arrays and strings have the method. *)
Definition includes (h : heap) (v : val) (s : string) : option bool :=
  match v with
  | VStr s' => Some (str_includes s' s)
  | VRef l =>
      match h !! l with
      | Some (OArr vs) => Some (bool_decide (VStr s ∈ vs))
      | _ => None
      end
  | _ => None
  end.

(** [arr.push(x)] *)
Definition array_push (h : heap) (arr : val) (x : val) : option heap :=
  match arr with
  | VRef l =>
      match h !! l with
      | Some (OArr vs) => Some (<[l := OArr (vs ++ [x])%list]> h)
      | _ => None
      end
  | _ => None
  end.

(** The string a template literal makes of a value.  (An array would be
    joined; tags are declared as strings.) *)
Definition to_string (v : val) : string :=
  match v with
  | VUndefined => "undefined"
  | VNull => "null"
  | VBool b => if b then "true" else "false"
  | VNum z => pretty z
  | VStr s => s
  | VRef _ => "[object Object]"
  end.

(** [new Set()] with [add]: insertion order, no duplicates. *)
Definition Set_add (x : val) (s : list val) : list val :=
  if bool_decide (x ∈ s) then s else (s ++ [x])%list.

(** A loop whose body may throw. *)
Fixpoint for_each {A S : Type} (xs : list A) (body : A → S → option S)
    (s : S) : option S :=
  match xs with
  | [] => Some s
  | x :: xs' =>
      match body x s with
      | Some s' => for_each xs' body s'
      | None => None
      end
  end.

(** ** The legacy class *)

Module Legacy.

Record Knife4jDoc := { swaggerJson : val }.

Definition new (swaggerJson_arg : val) (h : heap) : Knife4jDoc * heap :=
  match swaggerJson_arg with
  | VUndefined =>
      let '(o, h1) := alloc (OObj []) h in ({| swaggerJson := o |}, h1)
  | v => ({| swaggerJson := v |}, h)
  end.

Definition getSwaggerJson (self : Knife4jDoc) : val := swaggerJson self.

Definition error_body : object :=
  OObj [("error", VStr "Swagger configuration is not available");
        ("message",
         VStr ("Please check if swaggerJson was properly passed to "
               ++ "Knife4jDoc constructor"))].

Definition all : string := "全部".

(** [req.query.groupName || "全部"] *)
Definition groupName_of (req : request) : string :=
  match assoc_get (query req) "groupName" with
  | Some s => if String.eqb s "" then all else s
  | None => all
  end.

Definition group (prefix : string) (tag : val) : object :=
  OObj [("name", tag);
        ("location", VStr (prefix ++ "/api-docs/" ++ to_string tag));
        ("url", VStr (prefix ++ "/api-docs/" ++ to_string tag));
        ("swaggerVersion", VStr "3.0.0");
        ("servicePath", VStr "")].

(** [if (operation && operation.tags)
       operation.tags.forEach(tag => uniqueTags.add(tag))] *)
Definition add_tags (h : heap) (operation : val) (uniqueTags : list val)
    : option (list val) :=
  if truthy operation then
    match get_prop h operation "tags" with
    | None => None
    | Some tags =>
        if truthy tags then
          match forEach_elements h tags with
          | None => None
          | Some elems =>
              Some (foldl (λ s tag, Set_add tag s) uniqueTags elems)
          end
        else Some uniqueTags
    end
  else Some uniqueTags.

(** The two nested for-in loops, with the hasOwnProperty tests, around a
    body that works on the operation found under [path] and [method].
    The loops read the heap of the state they are in. *)
Definition for_operations {S : Type} (heap_of : S → heap) (paths : val)
    (body : string → string → val → S → option S) (s : S) : option S :=
  for_each (for_in_keys (heap_of s) paths)
    (λ path s,
       match hasOwnProperty (heap_of s) paths path with
       | None => None
       | Some false => Some s
       | Some true =>
           match get_prop (heap_of s) paths path with
           | None => None
           | Some pathObject =>
               for_each (for_in_keys (heap_of s) pathObject)
                 (λ method s,
                    match hasOwnProperty (heap_of s) pathObject method with
                    | None => None
                    | Some false => Some s
                    | Some true =>
                        match get_prop (heap_of s) pathObject method with
                        | None => None
                        | Some operation => body path method operation s
                        end
                    end) s
           end
       end) s.

(** The set of tags of the operations under [swaggerDocs.paths]. *)
Definition uniqueTags (h : heap) (swaggerDocs : val) : option (list val) :=
  match get_prop h swaggerDocs "paths" with
  | None => None
  | Some paths =>
      if truthy paths then
        for_operations (λ _, h) paths
          (λ _ _ operation s, add_tags h operation s) []
      else Some []
  end.

(** The array [groups]: the entry for all, then one pushed per tag. *)
Definition make_groups (prefix : string) (swaggerDocs : val) (h : heap)
    : option (val * heap) :=
  let '(g0, h1) := alloc (group prefix (VStr all)) h in
  let '(groups, h2) := alloc (OArr [g0]) h1 in
  match uniqueTags h2 swaggerDocs with
  | None => None
  | Some tags =>
      match
        for_each tags
          (λ tag h,
             let '(g, h') := alloc (group prefix tag) h in
             array_push h' groups g) h2
      with
      | None => None
      | Some h3 => Some (groups, h3)
      end
  end.

(** [operation && operation.tags && operation.tags.includes(groupName)] *)
Definition carries_tag (h : heap) (operation : val) (groupName : string)
    : option bool :=
  if truthy operation then
    match get_prop h operation "tags" with
    | None => None
    | Some tags =>
        if truthy tags then includes h tags groupName else Some false
    end
  else Some false.

(** [groupPaths[path] = groupPaths[path] || {};
     groupPaths[path][method] = operation;]
    when the operation carries the tag. *)
Definition keep_operation (groupPaths : val) (groupName : string)
    (path method : string) (operation : val) (h : heap) : option heap :=
  match carries_tag h operation groupName with
  | None => None
  | Some false => Some h
  | Some true =>
      match get_prop h groupPaths path with
      | None => None
      | Some cur =>
          let '(entry, h1) :=
            if truthy cur then (cur, h) else alloc (OObj []) h in
          match set_prop h1 groupPaths path entry with
          | None => None
          | Some h2 =>
              match get_prop h2 groupPaths path with
              | None => None
              | Some target => set_prop h2 target method operation
              end
          end
      end
  end.

Definition filter_paths (groupPaths : val) (groupName : string) (paths : val)
    (h : heap) : option heap :=
  if truthy paths then
    for_operations id paths (keep_operation groupPaths groupName) h
  else Some h.

Definition guard (swaggerJson_ : val) : bool :=
  negb (truthy swaggerJson_) || negb (typeof_object swaggerJson_).

(** [serveExpress(prefix)] applied to [(req, res, next)]. *)
Definition serveExpress (self : Knife4jDoc) (prefix : string)
    (req : request) (res : Response) (h : heap) : outcome Response :=
  let swaggerJson_ := swaggerJson self in
  if guard swaggerJson_ then
    let '(e, h1) := alloc error_body h in
    res_json e (res_status 500 res) h1
  else
    let swaggerDocs := swaggerJson_ in
    let groupName := groupName_of req in
    if String.eqb (url req) "/v3/api-docs/swagger-config" then
      match make_groups prefix swaggerDocs h with
      | None => Threw
      | Some (groups, h1) =>
          match set_prop h1 swaggerDocs "urls" groups with
          | None => Threw
          | Some h2 =>
              res_json swaggerDocs
                (res_setHeader "Content-Type" "application/json" res) h2
          end
      end
    else if String.eqb (url req) "/swagger-resources" then
      match make_groups prefix swaggerDocs h with
      | None => Threw
      | Some (groups, h1) => res_json groups res h1
      end
    else if String.prefix "/api-docs/" (url req) then
      match get_prop h swaggerDocs "paths" with
      | None => Threw
      | Some paths =>
          let '(groupPaths, h1) := alloc (OObj []) h in
          if String.eqb groupName all then res_json swaggerDocs res h1
          else
            match filter_paths groupPaths groupName paths h1 with
            | None => Threw
            | Some h2 =>
                match set_prop h2 swaggerDocs "paths" groupPaths with
                | None => Threw
                | Some h3 => res_json swaggerDocs res h3
                end
            end
      end
    else Returned res true h.

(** [serveKoa(prefix)] applied to [(ctx, next)]. *)
Definition serveKoa (self : Knife4jDoc) (prefix : string)
    (req : request) (ctx : Context) (h : heap) : outcome Context :=
  let swaggerJson_ := swaggerJson self in
  if guard swaggerJson_ then
    let ctx1 := ctx_set_status 500 ctx in
    let '(e, h1) := alloc error_body h in
    Returned (ctx_set_body e ctx1) false h1
  else
    let swaggerDocs := swaggerJson_ in
    let groupName := groupName_of req in
    if String.eqb (url req) "/v3/api-docs/swagger-config" then
      match make_groups prefix swaggerDocs h with
      | None => Threw
      | Some (groups, h1) =>
          match set_prop h1 swaggerDocs "urls" groups with
          | None => Threw
          | Some h2 =>
              Returned
                (ctx_set_body swaggerDocs (ctx_set_type "application/json" ctx))
                false h2
          end
      end
    else if String.eqb (url req) "/swagger-resources" then
      match make_groups prefix swaggerDocs h with
      | None => Threw
      | Some (groups, h1) => Returned (ctx_set_body groups ctx) false h1
      end
    else if String.prefix "/api-docs/" (url req) then
      match get_prop h swaggerDocs "paths" with
      | None => Threw
      | Some paths =>
          let '(groupPaths, h1) := alloc (OObj []) h in
          if String.eqb groupName all then
            Returned (ctx_set_body swaggerDocs ctx) false h1
          else
            match filter_paths groupPaths groupName paths h1 with
            | None => Threw
            | Some h2 =>
                match set_prop h2 swaggerDocs "paths" groupPaths with
                | None => Threw
                | Some h3 => Returned (ctx_set_body swaggerDocs ctx) false h3
                end
            end
      end
    else Returned ctx true h.

End Legacy.

(** ** The document as the specification describes it

    The functions of this section are written on deep values, following
    the wording of the specification: [paths] maps a path to a mapping from
    a method to an operation, and an operation may carry a list of tag
    strings.  The proofs compare them with what the handlers compute on the
    heap. *)

Definition tree_truthy (t : tree) : bool :=
  match t with
  | TUndef | TNull => false
  | TBool b => b
  | TNum z => negb (z =? 0)%Z
  | TStr s => negb (String.eqb s "")
  | TArr _ | TObj _ => true
  end.

(** The member [k] of an object; undefined when there is none. *)
Definition field (t : tree) (k : string) : tree :=
  match t with
  | TObj fs => default TUndef (assoc_get fs k)
  | _ => TUndef
  end.

Definition string_of (t : tree) : option string :=
  match t with TStr s => Some s | _ => None end.

(** The tags an operation carries. *)
Definition operation_tags (operation : tree) : list string :=
  if tree_truthy operation then
    match field operation "tags" with
    | TArr ts => omap string_of ts
    | _ => []
    end
  else [].

(** An operation as the data model has it: its [tags], when present, are
    a list of strings. *)
Definition operation_ok (operation : tree) : bool :=
  negb (tree_truthy operation)
  || match field operation "tags" with
     | TArr ts => forallb (λ t, bool_decide (is_Some (string_of t))) ts
     | t => negb (tree_truthy t)
     end.

(** A mapping whose names are pairwise distinct and leave the method
    [hasOwnProperty] visible. *)
Definition mapping_ok (fs : list (string * tree)) : bool :=
  bool_decide (NoDup (fs.*1)) && bool_decide ("hasOwnProperty" ∉ fs.*1).

Definition path_item_ok (item : tree) : bool :=
  match item with
  | TObj ms => mapping_ok ms && forallb (λ m, operation_ok (snd m)) ms
  | _ => false
  end.

Definition paths_ok (paths : tree) : bool :=
  match paths with
  | TObj ps => mapping_ok ps && forallb (λ p, path_item_ok (snd p)) ps
  | t => negb (tree_truthy t)
  end.

(** A document of the data model: an object whose [paths], when present,
    is a mapping of mappings of operations. *)
Definition conforming (doc : tree) : bool :=
  match doc with
  | TObj fs => paths_ok (field doc "paths")
  | _ => false
  end.

(** The operations of a document, with the path and the method each is
    found under. *)
Definition operations_of (paths : tree) : list (string * string * tree) :=
  match paths with
  | TObj ps =>
      flat_map (λ p,
        match snd p with
        | TObj ms => map (λ m, (fst p, fst m, snd m)) ms
        | _ => []
        end) ps
  | _ => []
  end.

(** Every tag occurrence, operation after operation. *)
Definition all_tags (doc : tree) : list string :=
  flat_map (λ o, operation_tags (snd o)) (operations_of (field doc "paths")).

(** The distinct elements of a list, each at its first occurrence. *)
Definition add_distinct (s : list string) (x : string) : list string :=
  if bool_decide (x ∈ s) then s else (s ++ [x])%list.

Definition distinct (l : list string) : list string :=
  foldl add_distinct [] l.

Definition group_text (prefix tag : string) : tree :=
  TObj [("name", TStr tag);
        ("location", TStr (prefix ++ "/api-docs/" ++ tag));
        ("url", TStr (prefix ++ "/api-docs/" ++ tag));
        ("swaggerVersion", TStr "3.0.0");
        ("servicePath", TStr "")].

(** The group list: the group of all, then one group per distinct tag. *)
Definition groups_text (prefix : string) (doc : tree) : tree :=
  TArr (group_text prefix Legacy.all
          :: map (group_text prefix) (distinct (all_tags doc))).

(** The methods of a path item whose operation carries the tag. *)
Definition carries (g : string) (m : string * tree) : bool :=
  bool_decide (g ∈ operation_tags (snd m)).

Definition tagged_methods (g : string) (item : tree) : list (string * tree) :=
  match item with
  | TObj ms => List.filter (carries g) ms
  | _ => []
  end.

(** The document with one member assigned. *)
Definition with_field (doc : tree) (k : string) (t : tree) : tree :=
  match doc with
  | TObj fs => TObj (assoc_set fs k t)
  | _ => doc
  end.

(** The properties [ps] of an object have, name by name, the deep values
    [fs]. *)
Definition props_rel (h : heap) (ps : list (string * val))
    (fs : list (string * tree)) : Prop :=
  Forall2 (λ p f, fst p = fst f ∧ deep_value h (snd p) (snd f)) ps fs.

(** The operations under [paths] as the heap has them: path, method and
    the value found there. *)
Definition heap_operations (h : heap) (paths : val)
    : list (string * string * val) :=
  match paths with
  | VRef lp =>
      match h !! lp with
      | Some (OObj pps) =>
          flat_map (λ p,
            match snd p with
            | VRef li =>
                match h !! li with
                | Some (OObj ims) => map (λ m, (fst p, fst m, snd m)) ims
                | _ => []
                end
            | _ => []
            end) pps
      | _ => []
      end
  | _ => []
  end.

Definition on_operation {S : Type}
    (body : string → string → val → S → option S)
    (o : string * string * val) : S → option S :=
  body (fst (fst o)) (snd (fst o)) (snd o).

(** An operation read from the heap, next to the same operation of the
    deep value. *)
Definition operation_rel (h0 : heap) (o : string * string * val)
    (o' : string * string * tree) : Prop :=
  fst o = fst o' ∧ deep_value h0 (snd o) (snd o')
  ∧ operation_ok (snd o') = true.

(** [gv] is a group object for [tag], apart from the array at [a]. *)
Definition is_group (prefix : string) (a : loc) (hn : heap) (gv : val)
    (tag : string) : Prop :=
  ∃ gl, gv = VRef gl ∧ gl ≠ a
        ∧ hn !! gl = Some (Legacy.group prefix (VStr tag)).

(** [groupPaths] while the loops run: the paths kept so far, each with the
    methods kept so far. *)
Definition upsert (acc : list (string * list (string * tree)))
    (p m : string) (t : tree) : list (string * list (string * tree)) :=
  match assoc_get acc p with
  | None => (acc ++ [(p, [(m, t)])])%list
  | Some ms => assoc_set acc p (assoc_set ms m t)
  end.

Definition keep_step (g : string) (acc : list (string * list (string * tree)))
    (o : string * string * tree) : list (string * list (string * tree)) :=
  if bool_decide (g ∈ operation_tags (snd o))
  then upsert acc (fst (fst o)) (snd (fst o)) (snd o)
  else acc.

Definition entries_text (acc : list (string * list (string * tree))) : tree :=
  TObj (map (λ e, (fst e, TObj (snd e))) acc).

(** The [paths] of the answer to a per-tag request: the paths that have a
    tagged operation, each with its tagged methods. *)
Definition tagged_entries (g : string) (paths : tree)
    : list (string * list (string * tree)) :=
  match paths with
  | TObj ps =>
      omap (λ p,
        match tagged_methods g (snd p) with
        | [] => None
        | ms => Some (fst p, ms)
        end) ps
  | _ => []
  end.

Definition tagged_paths (g : string) (paths : tree) : tree :=
  entries_text (tagged_entries g paths).

(** The member names of an object. *)
Definition keys (t : tree) : list string :=
  match t with
  | TObj fs => fs.*1
  | _ => []
  end.

(** The heap [s] holds [groupPaths] at [g] with the entries [acc]: every
    entry is an object of its own, allocated after [h], whose members are
    operations of the document. *)
Definition group_paths_rep (h0 h : heap) (g : loc) (s : heap)
    (acc : list (string * list (string * tree))) : Prop :=
  h ⊆ s ∧ h !! g = None ∧
  ∃ E : list (string * (loc * list (string * tree))),
    acc = map (λ e, (fst e, snd (snd e))) E
    ∧ s !! g = Some (OObj (map (λ e, (fst e, VRef (fst (snd e)))) E))
    ∧ NoDup (map (λ e, fst (snd e)) E)
    ∧ Forall (λ e, fst (snd e) ≠ g ∧ h !! fst (snd e) = None
                   ∧ ∃ ims, s !! fst (snd e) = Some (OObj ims)
                            ∧ props_rel h0 ims (snd (snd e))) E.

(** ** Example inputs *)

Module Examples.

Definition proc : process := {| cwd := "/srv/app" |}.

(** [{openapi: "3.0.0"}] stored at location 0. *)
Definition small_heap : heap := {[ 0 := OObj [("openapi", VStr "3.0.0")] ]}.

Definition small_text : tree := TObj [("openapi", TStr "3.0.0")].

Definition small_doc : Current.Knife4jDoc :=
  {| Current.swaggerJson := VRef 0; Current.name := "API" |}.

(** [new Knife4jDoc(null)] *)
Definition null_doc : Current.Knife4jDoc :=
  fst (Current.new VNull None ∅).

(** [const d = {}; d.self = d; new Knife4jDoc(d)] *)
Definition circular_heap : heap := {[ 0 := OObj [("self", VRef 0)] ]}.

Definition get (u : string) : request := {| url := u; query := [] |}.

(** The document of the filtering scenario: an operation tagged X under
    [/a] and an operation tagged Y under [/b]. *)
Definition operation_text (tag : string) : tree :=
  TObj [("tags", TArr [TStr tag]); ("summary", TStr "s")].

Definition ab_text : tree :=
  TObj [("openapi", TStr "3.0.0");
        ("paths", TObj [("/a", TObj [("get", operation_text "X")]);
                        ("/b", TObj [("get", operation_text "Y")])])].

Definition ab_heap : heap := snd (build ab_text ∅).

Definition ab_doc : Legacy.Knife4jDoc :=
  {| Legacy.swaggerJson := fst (build ab_text ∅) |}.

(** [GET /api-docs/X?groupName=X], [GET /api-docs/Y?groupName=Y] and
    [GET /api-docs/全部] *)
Definition get_X : request :=
  {| url := "/api-docs/X?groupName=X"; query := [("groupName", "X")] |}.

Definition get_Y : request :=
  {| url := "/api-docs/Y?groupName=Y"; query := [("groupName", "Y")] |}.

Definition get_all : request :=
  {| url := "/api-docs/全部"; query := [] |}.

Definition heap_after {R : Type} (o : outcome R) : heap :=
  match o with
  | Returned _ _ h => h
  | Threw => ∅
  end.

(** [new Knife4jDoc(null)] of the legacy class. *)
Definition legacy_null_doc : Legacy.Knife4jDoc :=
  fst (Legacy.new VNull ∅).

End Examples.

(** * Proofs *)

(** ** Induction on deep values *)

Lemma tree_ind' (P : tree → Prop) :
  P TUndef → P TNull → (∀ b, P (TBool b)) → (∀ z, P (TNum z)) →
  (∀ s, P (TStr s)) →
  (∀ ts, Forall P ts → P (TArr ts)) →
  (∀ fs, Forall (λ kt, P (snd kt)) fs → P (TObj fs)) →
  ∀ t, P t.
Proof.
  intros HU HN HB HZ HS HA HO.
  fix IH 1. intros [| | b | z | s | ts | fs].
  - exact HU.
  - exact HN.
  - apply HB.
  - apply HZ.
  - apply HS.
  - apply HA. induction ts as [|t ts IHts]; constructor; [apply IH|exact IHts].
  - apply HO.
    induction fs as [|[k t] fs IHfs]; constructor; [apply IH|exact IHfs].
Qed.

Lemma Forall2_mono {A B} (P Q : A → B → Prop) l k :
  (∀ x y, P x y → Q x y) → Forall2 P l k → Forall2 Q l k.
Proof. intros HPQ. induction 1; constructor; auto. Qed.

(** ** Reading the heap *)

Lemma snapshot_ref_Some n h l t :
  snapshot n h (VRef l) = Some t ↔
  ∃ n' o ts, n = S n' ∧ h !! l = Some o ∧
    Forall2 (λ v t', snapshot n' h v = Some t') (children o) ts ∧
    t = rebuild o ts.
Proof.
  split.
  - destruct n as [|n']; simpl; [done|].
    destruct (h !! l) as [o|] eqn:Hl; [|done].
    destruct (mapM _ _) as [ts|] eqn:Hm; [|done].
    intros [= <-]. exists n', o, ts. by apply mapM_Some in Hm.
  - intros (n' & o & ts & -> & Hl & Hm & ->). simpl. rewrite Hl.
    apply mapM_Some in Hm. by rewrite Hm.
Qed.

Lemma snapshot_prim n m h h' v t :
  (∀ l, v ≠ VRef l) → snapshot n h v = Some t → snapshot m h' v = Some t.
Proof.
  intros Hv. destruct v as [| | | | |l0], n, m; simpl; try done;
    by destruct (Hv l0).
Qed.

Lemma snapshot_mono_fuel n m h v t :
  n ≤ m → snapshot n h v = Some t → snapshot m h v = Some t.
Proof.
  revert m v t. induction n as [|n IH]; intros m v t Hle;
    (destruct v as [| | | | |l]; [by apply snapshot_prim..|]).
  - done.
  - rewrite !snapshot_ref_Some.
    intros (n' & o & ts & [= <-] & Hl & Hm & ->).
    destruct m as [|m]; [lia|].
    exists m, o, ts. split_and!; try done.
    revert Hm. apply Forall2_mono. intros v t'. apply IH. lia.
Qed.

Lemma snapshot_mono_heap n (h h' : heap) v t :
  h ⊆ h' → snapshot n h v = Some t → snapshot n h' v = Some t.
Proof.
  intros Hsub. revert v t. induction n as [|n IH]; intros v t;
    (destruct v as [| | | | |l]; [by apply snapshot_prim..|]).
  - done.
  - rewrite !snapshot_ref_Some.
    intros (n' & o & ts & [= <-] & Hl & Hm & ->).
    exists n, o, ts. split_and!; try done.
    + by eapply lookup_weaken.
    + revert Hm. apply Forall2_mono. intros v t'. apply IH.
Qed.

Lemma snapshot_functional n m h v t1 t2 :
  snapshot n h v = Some t1 → snapshot m h v = Some t2 → t1 = t2.
Proof.
  intros H1 H2.
  apply (snapshot_mono_fuel n (n `max` m)) in H1; [|lia].
  apply (snapshot_mono_fuel m (n `max` m)) in H2; [|lia].
  congruence.
Qed.

(** A traversal either avoids the object at [l], or contains a traversal
    of that object. *)
Lemma snapshot_touch n (h : heap) v t l :
  snapshot n h v = Some t →
  snapshot n (delete l h) v = Some t ∨
  ∃ m t', m ≤ n ∧ snapshot m h (VRef l) = Some t'.
Proof.
  revert v t. induction n as [|n IH]; intros v t;
    (destruct v as [| | | | |l0];
      [by left; eapply snapshot_prim; [|eassumption]..|]).
  - done.
  - intros Hs. destruct (decide (l0 = l)) as [->|Hne]; [right; eauto|].
    apply snapshot_ref_Some in Hs as (n' & o & ts & [= <-] & Hl & Hm & ->).
    assert (Forall2 (λ v t', snapshot n (delete l h) v = Some t')
              (children o) ts ∨
            ∃ m t', m ≤ n ∧ snapshot m h (VRef l) = Some t') as [Hc|Hc].
    { induction Hm as [|v t' vs ts' Hv _ IHm]; [left; constructor|].
      destruct (IH _ _ Hv) as [Hv'|Hv']; [|by right].
      destruct IHm as [Hvs|Hvs]; [|by right].
      left. by constructor. }
    + left. apply snapshot_ref_Some. exists n, o, ts.
      by rewrite lookup_delete_ne.
    + right. destruct Hc as (m & t' & Hle & Hs). exists m, t'. split; [lia|done].
Qed.

(** Fuel equal to the number of objects of the heap is enough. *)
Lemma snapshot_bound k : ∀ n (h : heap) v t,
  size h ≤ k → snapshot n h v = Some t → snapshot (S k) h v = Some t.
Proof.
  induction k as [|k IHk]; intros n; induction (lt_wf n) as [n _ IHn];
    intros h v t Hsz Hs;
    (destruct v as [| | | | |l]; [by eapply snapshot_prim; [|eassumption]..|]);
    pose proof Hs as Hs0;
    apply snapshot_ref_Some in Hs as (n' & o & ts & -> & Hl & Hm & ->).
  - apply Nat.le_0_r, map_size_empty_inv in Hsz. by rewrite Hsz in Hl.
  - assert (∀ m t', m ≤ n' → snapshot m h (VRef l) = Some t' →
            snapshot (S (S k)) h (VRef l) = Some (rebuild o ts)) as HG.
    { intros m t' Hle Hm'.
      rewrite (snapshot_functional _ _ _ _ _ _ Hs0 Hm').
      apply (IHn m); [lia|done..]. }
    assert (∀ G : Prop,
              (∀ m t', m ≤ n' → snapshot m h (VRef l) = Some t' → G) →
              Forall2 (λ v t', snapshot (S k) h v = Some t') (children o) ts
              ∨ G) as Hc.
    { intros G HG'. clear Hs0 HG.
      induction Hm as [|v t' vs ts' Hv _ IHm]; [left; constructor|].
      destruct IHm as [Hvs|Hvs]; [|by right].
      destruct (snapshot_touch _ _ _ _ l Hv) as [Hv'|(m & t'' & Hle & Hv')].
      - left. constructor; [|done].
        apply (snapshot_mono_heap _ (delete l h)); [apply delete_subseteq|].
        apply (IHk n'); [|done].
        rewrite map_size_delete_Some by eauto. lia.
      - right. eauto. }
    destruct (Hc _ HG) as [Hc'|Hc']; [|done].
    apply snapshot_ref_Some. by exists (S k), o, ts.
Qed.

Lemma deep_value_fuel (h : heap) v t :
  deep_value h v t ↔ snapshot (S (size h)) h v = Some t.
Proof.
  split; [|by exists (S (size h))].
  intros [n Hn]. by eapply snapshot_bound.
Qed.

Lemma deep_value_functional (h : heap) v t1 t2 :
  deep_value h v t1 → deep_value h v t2 → t1 = t2.
Proof. intros [n1 H1] [n2 H2]. by eapply snapshot_functional. Qed.

Lemma deep_value_weaken (h h' : heap) v t :
  h ⊆ h' → deep_value h v t → deep_value h' v t.
Proof. intros Hsub [n Hn]. exists n. by eapply snapshot_mono_heap. Qed.

Lemma deep_value_ref (h : heap) l t :
  deep_value h (VRef l) t ↔
  ∃ o ts, h !! l = Some o ∧
    Forall2 (λ v t', deep_value h v t') (children o) ts ∧ t = rebuild o ts.
Proof.
  split.
  - intros [n Hn].
    apply snapshot_ref_Some in Hn as (n' & o & ts & -> & Hl & Hm & ->).
    exists o, ts. split_and!; try done.
    revert Hm. apply Forall2_mono. intros v t' Hv. by exists n'.
  - intros (o & ts & Hl & Hm & ->). exists (S (S (size h))).
    apply snapshot_ref_Some. exists (S (size h)), o, ts. split_and!; try done.
    revert Hm. apply Forall2_mono. intros v t'. by rewrite deep_value_fuel.
Qed.

Lemma JSON_stringify_Some (h : heap) v t :
  deep_value h v t → JSON_stringify h v = Some (prune t).
Proof.
  rewrite deep_value_fuel. unfold JSON_stringify. by intros ->.
Qed.

Lemma JSON_stringify_inv (h : heap) v j :
  JSON_stringify h v = Some j → ∃ t, deep_value h v t ∧ j = prune t.
Proof.
  unfold JSON_stringify. destruct (snapshot _ _ _) as [t|] eqn:Hs; [|done].
  intros [= <-]. exists t. split; [|done]. by eexists.
Qed.

(** ** Allocation *)

Lemma alloc_spec o (h : heap) v h' :
  alloc o h = (v, h') →
  ∃ l, v = VRef l ∧ h !! l = None ∧ h' = <[l := o]> h.
Proof.
  unfold alloc. intros [= <- <-]. eexists. split_and!; try done.
  apply not_elem_of_dom, is_fresh.
Qed.

Lemma extends_refl (h : heap) : extends h h ∅.
Proof. split; [by rewrite (right_id ∅ (∪))|apply map_disjoint_empty_r]. Qed.

Lemma extends_trans (h1 h2 h3 hn1 hn2 : heap) :
  extends h1 h2 hn1 → extends h2 h3 hn2 →
  extends h1 h3 (hn1 ∪ hn2) ∧ hn1 ##ₘ hn2.
Proof.
  intros [-> Hd1] [-> Hd2].
  apply map_disjoint_union_l in Hd2 as [Hd2 Hd3].
  split; [|done]. split; [by rewrite (assoc (∪))|].
  by apply map_disjoint_union_r.
Qed.

Lemma extends_alloc o (h : heap) v h' :
  alloc o h = (v, h') →
  ∃ l, v = VRef l ∧ h !! l = None ∧ extends h h' {[l := o]}.
Proof.
  intros (l & -> & Hl & ->)%alloc_spec. exists l. split_and!; try done.
  split; [by rewrite insert_union_singleton_r|].
  by apply map_disjoint_singleton_r.
Qed.

Lemma extends_subseteq (h h' hn : heap) : extends h h' hn → h ⊆ h'.
Proof. intros [-> _]. apply map_union_subseteq_l. Qed.

Lemma extends_subseteq_new (h h' hn : heap) : extends h h' hn → hn ⊆ h'.
Proof. intros [-> ?]. by apply map_union_subseteq_r. Qed.

Section thread_spec.
Context {A : Type} (f : A → heap → val * heap) (g : A → tree).

Lemma thread_spec xs : Forall (allocates f g) xs → ∀ h vs h',
  thread f xs h = (vs, h') →
  ∃ hn, extends h h' hn ∧ Forall2 (λ x v, deep_value hn v (g x)) xs vs.
Proof.
  induction 1 as [|x xs Hx _ IH]; intros h vs h'; simpl.
  - intros [= <- <-]. exists ∅. split; [apply extends_refl|constructor].
  - destruct (f x h) as [v h1] eqn:Hf.
    destruct (thread f xs h1) as [vs' h2] eqn:Ht. intros [= <- <-].
    destruct (Hx _ _ _ Hf) as (hn1 & He1 & Hv).
    destruct (IH _ _ _ Ht) as (hn2 & He2 & Hvs).
    destruct (extends_trans _ _ _ _ _ He1 He2) as [He Hd].
    exists (hn1 ∪ hn2). split; [done|]. constructor.
    + eapply deep_value_weaken; [|done]. apply map_union_subseteq_l.
    + revert Hvs. apply Forall2_mono. intros y v'.
      apply deep_value_weaken. by apply map_union_subseteq_r.
Qed.
End thread_spec.

(** [build] allocates, next to the heap it is given, objects that have the
    deep value [t] by themselves. *)
Lemma build_spec t : ∀ h v h',
  build t h = (v, h') → ∃ hn, extends h h' hn ∧ deep_value hn v t.
Proof.
  induction t as [| | b | z | s | ts IH | fs IH] using tree_ind';
    intros h v h'; simpl;
    try (intros [= <- <-]; exists ∅; split; [apply extends_refl|by exists 0]).
  - destruct (thread build ts h) as [vs h1] eqn:Ht. intros Ha.
    destruct (thread_spec build id ts IH _ _ _ Ht) as (hn1 & He1 & Hvs).
    destruct (extends_alloc _ _ _ _ Ha) as (l & -> & Hl & He2).
    destruct (extends_trans _ _ _ _ _ He1 He2) as [He Hd].
    exists (hn1 ∪ {[l := OArr vs]}). split; [done|].
    apply deep_value_ref. exists (OArr vs), ts. split_and!; try done.
    + apply lookup_union_Some_raw. right.
      split; [|by rewrite lookup_singleton_eq].
      eapply map_disjoint_Some_r; [done|]. by rewrite lookup_singleton_eq.
    + simpl. apply Forall2_flip. revert Hvs. apply Forall2_mono.
      intros t v'. apply deep_value_weaken, map_union_subseteq_l.
  - destruct (thread _ fs h) as [vs h1] eqn:Ht. intros Ha.
    destruct (thread_spec (λ kt, build (snd kt)) snd fs IH _ _ _ Ht)
      as (hn1 & He1 & Hvs).
    destruct (extends_alloc _ _ _ _ Ha) as (l & -> & Hl & He2).
    destruct (extends_trans _ _ _ _ _ He1 He2) as [He Hd].
    exists (hn1 ∪ {[l := OObj (zip (fs.*1) vs)]}). split; [done|].
    assert (length (fs.*1) = length vs) as Hlen.
    { rewrite length_fmap. by eapply Forall2_length. }
    apply deep_value_ref. exists (OObj (zip (fs.*1) vs)), (fs.*2).
    split_and!.
    + apply lookup_union_Some_raw. right.
      split; [|by rewrite lookup_singleton_eq].
      eapply map_disjoint_Some_r; [done|]. by rewrite lookup_singleton_eq.
    + simpl. rewrite snd_zip by lia.
      apply Forall2_flip, Forall2_fmap_l. revert Hvs. apply Forall2_mono.
      intros t v'. apply deep_value_weaken, map_union_subseteq_l.
    + simpl. rewrite fst_zip by lia. by rewrite zip_fst_snd.
Qed.

(** ** Strings *)

Lemma string_length_app (s1 s2 : string) :
  String.length (s1 ++ s2) = String.length s1 + String.length s2.
Proof. induction s1 as [|c s1 IH]; simpl; [done|by rewrite IH]. Qed.

(** No prefix makes the document route collide with the discovery route. *)
Lemma swagger_json_not_services (prefix : string) :
  prefix ++ "/swagger.json" ≠ "/services.json".
Proof.
  destruct prefix as [|c [|c' p]]; simpl; try discriminate.
  intros H%(f_equal String.length). simpl in H.
  rewrite string_length_app in H. simpl in H. lia.
Qed.

(** ** Deep values of literals and copies *)

Lemma deep_value_prim (h : heap) v :
  (∀ l, v ≠ VRef l) → ∃ t, ∀ h', deep_value h' v t.
Proof.
  intros Hv. destruct v as [| | b | z | s | l].
  - exists TUndef. by exists 0.
  - exists TNull. by exists 0.
  - exists (TBool b). by exists 0.
  - exists (TNum z). by exists 0.
  - exists (TStr s). by exists 0.
  - by destruct (Hv l).
Qed.

Lemma deep_value_str (h : heap) s : deep_value h (VStr s) (TStr s).
Proof. by exists 0. Qed.

Lemma deep_value_alloc o (h : heap) v h' ts :
  alloc o h = (v, h') →
  Forall2 (λ v' t', deep_value h v' t') (children o) ts →
  deep_value h' v (rebuild o ts).
Proof.
  intros (l & -> & Hl & ->)%alloc_spec Hc.
  apply deep_value_ref. exists o, ts. split_and!; try done.
  - by rewrite lookup_insert_eq.
  - revert Hc. apply Forall2_mono. intros v t'.
    apply deep_value_weaken. by apply insert_subseteq.
Qed.

Lemma deep_value_ref_not_undef (h : heap) l t :
  deep_value h (VRef l) t → is_undef t = false ∧ is_undef (prune t) = false.
Proof.
  intros (o & ts & _ & _ & ->)%deep_value_ref. by destruct o.
Qed.

Lemma prune_not_undef t : is_undef t = false → is_undef (prune t) = false.
Proof. by destruct t. Qed.

Lemma null_if_undef_not_undef t : is_undef (null_if_undef t) = false.
Proof. by destruct t. Qed.

Lemma prune_null_if_undef t :
  prune (null_if_undef t) = null_if_undef (prune t).
Proof. by destruct t. Qed.

Lemma null_if_undef_idemp t : null_if_undef (null_if_undef t) = null_if_undef t.
Proof. by destruct t. Qed.

(** Serialising what was parsed from a serialisation changes nothing. *)
Lemma prune_idemp t : prune (prune t) = prune t.
Proof.
  induction t as [| | b | z | s | ts IH | fs IH] using tree_ind'; try done.
  - simpl. f_equal. rewrite map_map.
    induction IH as [|t ts Ht _ IHts]; [done|]. simpl. f_equal; [|done].
    by rewrite prune_null_if_undef, Ht, null_if_undef_idemp.
  - simpl. f_equal.
    induction IH as [|[k t] fs Ht _ IHfs]; [done|]. simpl in *.
    destruct (is_undef (prune t)) eqn:Hu; simpl; [done|].
    rewrite Ht, Hu. simpl. by rewrite IHfs.
Qed.

(** ** The deep copy [JSON.parse(JSON.stringify(v))] *)

Lemma deep_copy_spec (h : heap) l t :
  deep_value h (VRef l) t →
  JSON_stringify h (VRef l) = Some (prune t) ∧
  ∃ b h1 hn, JSON_parse (prune t) h = Some (b, h1) ∧
    extends h h1 hn ∧ deep_value hn b (prune t) ∧ b ≠ VRef l.
Proof.
  intros Hd. split; [by apply JSON_stringify_Some|].
  unfold JSON_parse.
  destruct (deep_value_ref_not_undef _ _ _ Hd) as [_ ->].
  destruct (build (prune t) h) as [b h1] eqn:Hb.
  destruct (build_spec _ _ _ _ Hb) as (hn & He & Hv).
  exists b, h1, hn. split_and!; try done.
  intros ->. apply deep_value_ref in Hv as (o & _ & Hl & _).
  apply deep_value_ref in Hd as (o' & _ & Hl' & _).
  destruct He as [_ Hdisj]. by eapply map_disjoint_spec.
Qed.

Lemma res_json_spec (h : heap) v t res :
  deep_value h v t → res_json v res h = Returned (sent v (prune t) res) false h.
Proof. intros Hv. unfold res_json. by rewrite (JSON_stringify_Some _ _ t). Qed.

Section current.
Import Current.
Context (proc : process) (self : Knife4jDoc) (prefix : string).

Lemma guard_ref l :
  swaggerJson self = VRef l →
  negb (truthy (swaggerJson self))
    || negb (typeof_object (swaggerJson self)) = false.
Proof. by intros ->. Qed.

Lemma guard_not_ref :
  (∀ l, swaggerJson self ≠ VRef l) →
  negb (truthy (swaggerJson self))
    || negb (typeof_object (swaggerJson self)) = true.
Proof.
  intros H. destruct (swaggerJson self) as [| | b | z | s | l]; simpl;
    rewrite ?orb_true_r; try done.
  by destruct (H l).
Qed.

(** The document route, for a stored object that is not circular. *)
Lemma serveExpress_swagger_json req res (h : heap) l t :
  swaggerJson self = VRef l →
  deep_value h (VRef l) t →
  url req = prefix ++ "/swagger.json" →
  ∃ b h1 hn,
    serveExpress proc self prefix req res h
      = Returned (sent b (prune t) res) false h1 ∧
    extends h h1 hn ∧ deep_value hn b (prune t) ∧ b ≠ VRef l.
Proof.
  intros Hs Hd Hu. unfold serveExpress. rewrite (guard_ref l Hs), Hs.
  destruct (deep_copy_spec _ _ _ Hd) as (-> & b & h1 & hn & -> & He & Hb & Hne).
  exists b, h1, hn. split_and!; try done.
  rewrite Hu.
  destruct (String.eqb_spec (prefix ++ "/swagger.json") "/services.json")
    as [Heq|_]; [by apply swagger_json_not_services in Heq|].
  rewrite String.eqb_refl.
  rewrite (res_json_spec _ _ (prune t)); [by rewrite prune_idemp|].
  eapply deep_value_weaken; [|done]. by eapply extends_subseteq_new.
Qed.
End current.

(** * The legacy protocol *)

(** ** Deep values and the shape of the heap *)

Lemma truthy_deep_value (h : heap) v t :
  deep_value h v t → truthy v = tree_truthy t.
Proof.
  destruct v as [| | b | z | s | l].
  1-5: by intros [[|n] [= <-]].
  intros (o & ts & _ & _ & ->)%deep_value_ref. by destruct o.
Qed.

Lemma deep_value_prim_inv (h : heap) v t :
  deep_value h v t →
  match t with
  | TUndef => v = VUndefined
  | TNull => v = VNull
  | TBool b => v = VBool b
  | TNum z => v = VNum z
  | TStr s => v = VStr s
  | _ => ∃ l, v = VRef l
  end.
Proof.
  destruct v as [| | b | z | s | l].
  1-5: by intros [[|n] [= <-]].
  intros (o & ts & _ & _ & ->)%deep_value_ref. destruct o; simpl; eauto.
Qed.

Lemma props_rel_zip (h : heap) (ps : list (string * val)) ts :
  Forall2 (λ v t, deep_value h v t) (ps.*2) ts →
  props_rel h ps (zip (ps.*1) ts).
Proof.
  revert ts. induction ps as [|[k v] ps IH]; intros ts Hf; simpl in *.
  - constructor.
  - inversion Hf as [|? t ? ts' Hv Hf']; subst. simpl.
    constructor; [done|by apply IH].
Qed.

Lemma props_rel_unzip (h : heap) ps fs :
  props_rel h ps fs →
  fs = zip (ps.*1) (fs.*2) ∧ Forall2 (λ v t, deep_value h v t) (ps.*2) (fs.*2).
Proof.
  induction 1 as [|[k v] [k' t] ps fs [Hk Hv] _ [IH1 IH2]]; simpl in *.
  - split; [done|constructor].
  - subst k'. split; [by f_equal|by constructor].
Qed.

Lemma deep_value_obj (h : heap) l ps t :
  h !! l = Some (OObj ps) →
  deep_value h (VRef l) t ↔ ∃ fs, t = TObj fs ∧ props_rel h ps fs.
Proof.
  intros Hl. rewrite deep_value_ref. split.
  - intros (o & ts & Hl' & Hc & ->). rewrite Hl in Hl'. injection Hl' as <-.
    eexists. split; [done|]. by apply props_rel_zip.
  - intros (fs & -> & [Hz Hc]%props_rel_unzip).
    exists (OObj ps), (fs.*2). simpl. split_and!; try done. by f_equal.
Qed.

Lemma deep_value_arr (h : heap) l vs t :
  h !! l = Some (OArr vs) →
  deep_value h (VRef l) t ↔
  ∃ ts, t = TArr ts ∧ Forall2 (λ v t', deep_value h v t') vs ts.
Proof.
  intros Hl. rewrite deep_value_ref. split.
  - intros (o & ts & Hl' & Hc & ->). rewrite Hl in Hl'. injection Hl' as <-.
    by exists ts.
  - intros (ts & -> & Hc). by exists (OArr vs), ts.
Qed.

Lemma deep_value_TObj_inv (h : heap) v fs :
  deep_value h v (TObj fs) →
  ∃ l ps, v = VRef l ∧ h !! l = Some (OObj ps) ∧ props_rel h ps fs.
Proof.
  intros Hd. destruct (deep_value_prim_inv _ _ _ Hd) as [l ->].
  destruct (proj1 (deep_value_ref _ _ _) Hd) as (o & ts & Hl & Hc & Ht).
  destruct o as [ps|vs]; [|done]. simpl in Ht. injection Ht as ->.
  exists l, ps. split_and!; try done. by apply props_rel_zip.
Qed.

Lemma deep_value_TArr_inv (h : heap) v ts :
  deep_value h v (TArr ts) →
  ∃ l vs, v = VRef l ∧ h !! l = Some (OArr vs) ∧
    Forall2 (λ v t', deep_value h v t') vs ts.
Proof.
  intros Hd. destruct (deep_value_prim_inv _ _ _ Hd) as [l ->].
  destruct (proj1 (deep_value_ref _ _ _) Hd) as (o & ts' & Hl & Hc & Ht).
  destruct o as [ps|vs]; [done|]. simpl in Ht. injection Ht as ->.
  by exists l, vs.
Qed.

(** ** Association lists *)

Lemma props_rel_keys (h : heap) ps fs : props_rel h ps fs → ps.*1 = fs.*1.
Proof.
  induction 1 as [|p f ps fs [Hk _] _ IH]; [done|].
  rewrite !fmap_cons. by f_equal.
Qed.

Lemma props_rel_get (h : heap) ps fs k :
  props_rel h ps fs →
  deep_value h (default VUndefined (assoc_get ps k))
    (default TUndef (assoc_get fs k)).
Proof.
  induction 1 as [|[k1 v] [k2 t] ps fs [Hk Hv] _ IH]; simpl in *.
  - by exists 0.
  - subst k2. by destruct (String.eqb k1 k).
Qed.

Lemma props_rel_set (h : heap) ps fs k v t :
  props_rel h ps fs → deep_value h v t →
  props_rel h (assoc_set ps k v) (assoc_set fs k t).
Proof.
  intros Hr Hv. induction Hr as [|[k1 v1] [k2 t1] ps fs [Hk Hv1] Hr IH];
    simpl in *.
  - by repeat constructor.
  - subst k2. destruct (String.eqb k1 k); constructor; done.
Qed.

Lemma props_rel_weaken (h h' : heap) ps fs :
  h ⊆ h' → props_rel h ps fs → props_rel h' ps fs.
Proof.
  intros Hsub. apply Forall2_mono. intros p f [? ?].
  split; [done|by eapply deep_value_weaken].
Qed.

Lemma assoc_get_None {A} (ps : list (string * A)) k :
  assoc_get ps k = None ↔ k ∉ ps.*1.
Proof.
  induction ps as [|[k' x] ps IH]; simpl.
  - split; [intros _; apply not_elem_of_nil|done].
  - rewrite not_elem_of_cons.
    destruct (String.eqb_spec k' k) as [->|Hne].
    + split; [done|]. by intros [? _].
    + rewrite IH. split; [by split|by intros [_ ?]].
Qed.

Lemma assoc_get_NoDup {A} (ps : list (string * A)) k x :
  NoDup (ps.*1) → (k, x) ∈ ps → assoc_get ps k = Some x.
Proof.
  induction ps as [|[k' y] ps IH]; simpl; intros Hnd Hin.
  - by apply elem_of_nil in Hin.
  - apply NoDup_cons in Hnd as [Hk Hnd].
    apply elem_of_cons in Hin as [[= <- <-]|Hin].
    + by rewrite String.eqb_refl.
    + destruct (String.eqb_spec k' k) as [->|Hne]; [|by apply IH].
      destruct Hk. apply list_elem_of_fmap. by exists (k, x).
Qed.

Lemma assoc_set_same {A} (ps : list (string * A)) k x :
  assoc_get ps k = Some x → assoc_set ps k x = ps.
Proof.
  induction ps as [|[k' y] ps IH]; simpl; [done|].
  destruct (String.eqb_spec k' k) as [->|Hne].
  - by intros [= ->].
  - intros H. by rewrite IH.
Qed.

Lemma assoc_set_new {A} (ps : list (string * A)) k x :
  assoc_get ps k = None → assoc_set ps k x = (ps ++ [(k, x)])%list.
Proof.
  induction ps as [|[k' y] ps IH]; simpl; [done|].
  destruct (String.eqb k' k); [done|]. intros H. by rewrite IH.
Qed.

Lemma assoc_get_set {A} (ps : list (string * A)) k x :
  assoc_get (assoc_set ps k x) k = Some x.
Proof.
  induction ps as [|[k' y] ps IH]; simpl.
  - by rewrite String.eqb_refl.
  - destruct (String.eqb k' k) eqn:E; simpl.
    + by rewrite String.eqb_refl.
    + by rewrite E.
Qed.

(** ** Loops *)

Section for_each.
Context {A S : Type} (Inv : S → Prop).

Lemma for_each_ext_in xs (f g : A → S → option S) s :
  (∀ x s, x ∈ xs → Inv s → f x s = g x s) →
  (∀ x s s', x ∈ xs → Inv s → g x s = Some s' → Inv s') →
  Inv s → for_each xs f s = for_each xs g s.
Proof.
  revert s. induction xs as [|x xs IH]; intros s Hfg Hg Hs; simpl; [done|].
  rewrite (Hfg x s) by (try apply elem_of_cons; auto).
  destruct (g x s) as [s'|] eqn:Hgx; [|done].
  apply IH.
  - intros y s1 Hy. apply Hfg. apply elem_of_cons; auto.
  - intros y s1 s2 Hy. apply Hg. apply elem_of_cons; auto.
  - eapply Hg; [|done..]. apply elem_of_cons; auto.
Qed.

Lemma for_each_inv xs (f : A → S → option S) s s' :
  (∀ x s s', x ∈ xs → Inv s → f x s = Some s' → Inv s') →
  Inv s → for_each xs f s = Some s' → Inv s'.
Proof.
  revert s. induction xs as [|x xs IH]; intros s Hf Hs; simpl.
  - by intros [= <-].
  - destruct (f x s) as [s1|] eqn:Hfx; [|done]. apply IH.
    + intros y s2 s3 Hy. apply Hf. apply elem_of_cons; auto.
    + eapply Hf; [|done..]. apply elem_of_cons; auto.
Qed.
End for_each.

Lemma for_each_cons {A S} x xs (f : A → S → option S) s :
  for_each (x :: xs) f s
  = match f x s with Some s' => for_each xs f s' | None => None end.
Proof. done. Qed.

Lemma for_each_fmap {A B S} (k : A → B) xs (f : B → S → option S) s :
  for_each (k <$> xs) f s = for_each xs (λ x, f (k x)) s.
Proof.
  revert s. induction xs as [|x xs IH]; intros s; simpl; [done|].
  destruct (f (k x) s); [apply IH|done].
Qed.

Lemma for_each_app {A S} xs ys (f : A → S → option S) s :
  for_each (xs ++ ys) f s
  = match for_each xs f s with Some s' => for_each ys f s' | None => None end.
Proof.
  revert s. induction xs as [|x xs IH]; intros s; simpl; [done|].
  destruct (f x s); [apply IH|done].
Qed.

Lemma for_each_flat_map {A B S} (k : A → list B) xs (f : B → S → option S) s :
  for_each (flat_map k xs) f s = for_each xs (λ x s, for_each (k x) f s) s.
Proof.
  revert s. induction xs as [|x xs IH]; intros s; simpl; [done|].
  rewrite for_each_app. destruct (for_each (k x) f s); [apply IH|done].
Qed.

(** ** Reading a conforming document *)

Lemma mapping_ok_spec fs :
  mapping_ok fs = true → NoDup (fs.*1) ∧ "hasOwnProperty" ∉ fs.*1.
Proof.
  unfold mapping_ok. intros [H1 H2]%andb_prop.
  by apply bool_decide_eq_true in H1, H2.
Qed.

Section reading.
Context (h0 hc : heap) (Hsub : h0 ⊆ hc).

Lemma read_lookup l o : h0 !! l = Some o → hc !! l = Some o.
Proof. intros. by eapply lookup_weaken. Qed.

Lemma for_in_keys_obj v fs :
  deep_value h0 v (TObj fs) → for_in_keys hc v = fs.*1.
Proof.
  intros (l & ps & -> & Hl & Hr)%deep_value_TObj_inv. simpl.
  rewrite (read_lookup _ _ Hl). by eapply props_rel_keys.
Qed.

Lemma hasOwnProperty_obj v fs k :
  deep_value h0 v (TObj fs) → "hasOwnProperty" ∉ fs.*1 →
  hasOwnProperty hc v k = Some (bool_decide (k ∈ fs.*1)).
Proof.
  intros (l & ps & -> & Hl & Hr)%deep_value_TObj_inv Hno. simpl.
  rewrite (read_lookup _ _ Hl), <-(props_rel_keys _ _ _ Hr).
  rewrite <-(props_rel_keys _ _ _ Hr) in Hno.
  apply assoc_get_None in Hno. by rewrite Hno.
Qed.

Lemma get_prop_obj v fs k :
  deep_value h0 v (TObj fs) →
  ∃ v', get_prop hc v k = Some v' ∧ deep_value h0 v' (field (TObj fs) k).
Proof.
  intros (l & ps & -> & Hl & Hr)%deep_value_TObj_inv. simpl.
  rewrite (read_lookup _ _ Hl). eexists. split; [done|].
  by apply props_rel_get.
Qed.

(** Reading [tags] off any truthy value. *)
Lemma get_prop_tags v t :
  deep_value h0 v t → tree_truthy t = true →
  ∃ v', get_prop hc v "tags" = Some v' ∧ deep_value h0 v' (field t "tags").
Proof.
  intros Hd Ht. destruct t as [| | b | z | s | ts | fs]; try done.
  - apply deep_value_prim_inv in Hd as ->. exists VUndefined. split; [done|].
    by exists 0.
  - apply deep_value_prim_inv in Hd as ->. exists VUndefined. split; [done|].
    by exists 0.
  - apply deep_value_prim_inv in Hd as ->. exists VUndefined. split; [done|].
    by exists 0.
  - apply deep_value_TArr_inv in Hd as (l & vs & -> & Hl & _). simpl.
    rewrite (read_lookup _ _ Hl). exists VUndefined. split; [done|].
    by exists 0.
  - by apply get_prop_obj.
Qed.

Lemma strings_inv vs ts :
  Forall2 (λ v t, deep_value h0 v t) vs ts →
  forallb (λ t, bool_decide (is_Some (string_of t))) ts = true →
  vs = VStr <$> omap string_of ts.
Proof.
  induction 1 as [|v t vs ts Hv _ IH]; simpl; [done|].
  intros [Ht Hts]%andb_prop. apply bool_decide_eq_true in Ht as [s Hs].
  destruct t; try done. injection Hs as ->. simpl.
  apply deep_value_prim_inv in Hv as ->. f_equal. by apply IH.
Qed.
End reading.

Lemma Set_add_strings x (s : list string) :
  Set_add (VStr x) (VStr <$> s) = VStr <$> add_distinct s x.
Proof.
  unfold Set_add, add_distinct.
  rewrite (bool_decide_ext (VStr x ∈ VStr <$> s) (x ∈ s)).
  - destruct (bool_decide (x ∈ s)); [done|]. by rewrite fmap_app.
  - rewrite list_elem_of_fmap. split; [|by exists x].
    by intros (y & [= ->] & Hy).
Qed.

Lemma foldl_Set_add_strings (l s : list string) :
  foldl (λ s tag, Set_add tag s) (VStr <$> s) (VStr <$> l)
  = VStr <$> foldl add_distinct s l.
Proof.
  revert s. induction l as [|x l IH]; intros s; simpl; [done|].
  by rewrite Set_add_strings, IH.
Qed.

Section reading_operations.
Import Legacy.
Context (h0 hc : heap) (Hsub : h0 ⊆ hc).

Lemma forEach_elements_strings v ts :
  deep_value h0 v (TArr ts) →
  forallb (λ t, bool_decide (is_Some (string_of t))) ts = true →
  forEach_elements hc v = Some (VStr <$> omap string_of ts)
  ∧ ∀ g, includes hc v g = Some (bool_decide (g ∈ omap string_of ts)).
Proof.
  intros (l & vs & -> & Hl & Hvs)%deep_value_TArr_inv Hts. simpl.
  rewrite (read_lookup _ _ Hsub _ _ Hl).
  rewrite (strings_inv _ _ _ Hvs Hts). split; [done|]. intros g. f_equal.
  apply bool_decide_ext. rewrite list_elem_of_fmap. split; [|by exists g].
  by intros (y & [= ->] & Hy).
Qed.

Lemma add_tags_spec v t (s : list string) :
  deep_value h0 v t → operation_ok t = true →
  add_tags hc v (VStr <$> s)
  = Some (VStr <$> foldl add_distinct s (operation_tags t)).
Proof.
  intros Hd Hok. unfold add_tags, operation_tags, operation_ok in *.
  rewrite (truthy_deep_value _ _ _ Hd).
  destruct (tree_truthy t) eqn:Ht; [|done]. simpl in Hok.
  destruct (get_prop_tags _ _ Hsub _ _ Hd Ht) as (tags & -> & Htags).
  rewrite (truthy_deep_value _ _ _ Htags).
  destruct (field t "tags") as [| | b | z | s' | ts | fs] eqn:Hf;
    simpl in *; try done; try (by rewrite (negb_true_iff _) in Hok; rewrite Hok).
  destruct (forEach_elements_strings _ _ Htags Hok) as [-> _].
  by rewrite foldl_Set_add_strings.
Qed.

Lemma carries_tag_spec v t g :
  deep_value h0 v t → operation_ok t = true →
  carries_tag hc v g = Some (bool_decide (g ∈ operation_tags t)).
Proof.
  intros Hd Hok. unfold carries_tag, operation_tags, operation_ok in *.
  rewrite (truthy_deep_value _ _ _ Hd).
  destruct (tree_truthy t) eqn:Ht; [|done]. simpl in Hok.
  destruct (get_prop_tags _ _ Hsub _ _ Hd Ht) as (tags & -> & Htags).
  rewrite (truthy_deep_value _ _ _ Htags).
  destruct (field t "tags") as [| | b | z | s' | ts | fs] eqn:Hf;
    simpl in *; try done; try (by rewrite (negb_true_iff _) in Hok; rewrite Hok).
  by destruct (forEach_elements_strings _ _ Htags Hok) as [_ ->].
Qed.
End reading_operations.

Lemma Forall2_flat_map {A B C D} (R : A → B → Prop) (Q : C → D → Prop)
    (f : A → list C) (g : B → list D) xs ys :
  Forall2 R xs ys → (∀ x y, R x y → Forall2 Q (f x) (g y)) →
  Forall2 Q (flat_map f xs) (flat_map g ys).
Proof.
  intros Hxs Hfg. induction Hxs as [|x y xs ys Hxy _ IH]; simpl; [constructor|].
  apply Forall2_app; auto.
Qed.

Lemma forallb_Forall {A} (f : A → bool) xs :
  forallb f xs = true ↔ Forall (λ x, f x = true) xs.
Proof.
  induction xs as [|x xs IH]; simpl; [by split; [constructor|]|].
  rewrite andb_true_iff, IH, Forall_cons. done.
Qed.

Lemma Forall2_and_r {A B} (R : A → B → Prop) (P : B → Prop) xs ys :
  Forall2 R xs ys → Forall P ys → Forall2 (λ x y, R x y ∧ P y) xs ys.
Proof.
  induction 1 as [|x y xs ys Hxy _ IH]; [constructor|].
  intros [Hy Hys]%Forall_cons. constructor; auto.
Qed.

Lemma Forall2_exists_l {A B} (R : A → B → Prop) xs ys :
  Forall2 R xs ys → Forall (λ x, ∃ y, R x y) xs.
Proof. induction 1; constructor; eauto. Qed.

(** ** The operations of a conforming document, on the heap and in the
       deep value *)

Section operations.
Import Legacy.
Context (h0 : heap) (paths : val) (ps : list (string * tree)).
Context (Hpaths : deep_value h0 paths (TObj ps)).
Context (Hok : paths_ok (TObj ps) = true).

Lemma heap_operations_rel :
  Forall2 (operation_rel h0) (heap_operations h0 paths)
    (operations_of (TObj ps)).
Proof.
  destruct (deep_value_TObj_inv _ _ _ Hpaths) as (lp & pps & -> & Hlp & Hr).
  simpl in *. rewrite Hlp. apply andb_prop in Hok as [_ Hitems].
  apply forallb_Forall in Hitems.
  eapply Forall2_flat_map; [exact (Forall2_and_r _ _ _ _ Hr Hitems)|].
  intros [p iv] [p' item] [[Hp Hiv] Hitem]. simpl in *. subst p'.
  destruct item as [| | | | | |ms]; try done.
  apply deep_value_TObj_inv in Hiv as (li & ims & -> & Hli & Hrm).
  rewrite Hli. apply andb_prop in Hitem as [_ Hops].
  apply forallb_Forall in Hops.
  apply Forall2_fmap.
  eapply Forall2_mono; [|exact (Forall2_and_r _ _ _ _ Hrm Hops)].
  intros [m v] [m' t] [[Hm Hv] Ht]. simpl in *. subst m'. done.
Qed.
(** A plain object whose names are distinct and leave [hasOwnProperty]
    visible is enumerated entry by entry. *)
Lemma for_each_entries {S} (heap_of : S → heap) (Inv : S → Prop) l es
    (f : string → val → S → option S) s0 :
  NoDup (es.*1) → "hasOwnProperty" ∉ es.*1 →
  (∀ s, Inv s → heap_of s !! l = Some (OObj es)) →
  (∀ e s s', e ∈ es → Inv s → f (fst e) (snd e) s = Some s' → Inv s') →
  Inv s0 →
  for_each (for_in_keys (heap_of s0) (VRef l))
    (λ k s,
       match hasOwnProperty (heap_of s) (VRef l) k with
       | None => None
       | Some false => Some s
       | Some true =>
           match get_prop (heap_of s) (VRef l) k with
           | None => None
           | Some v => f k v s
           end
       end) s0
  = for_each es (λ e, f (fst e) (snd e)) s0.
Proof.
  intros Hnd Hno Hl Hf Hs0. simpl. rewrite (Hl _ Hs0), for_each_fmap.
  apply (for_each_ext_in Inv); [|done..].
  intros [k v] s Hin Hs. simpl. rewrite (Hl _ Hs).
  apply assoc_get_None in Hno. rewrite Hno.
  rewrite bool_decide_eq_true_2
    by (apply list_elem_of_fmap; by exists (k, v)).
  by rewrite (assoc_get_NoDup _ _ _ Hnd Hin).
Qed.

Lemma for_operations_flat {S} (heap_of : S → heap) (Inv : S → Prop) body s0 :
  (∀ s, Inv s → h0 ⊆ heap_of s) →
  (∀ o s s', o ∈ heap_operations h0 paths → Inv s →
     on_operation body o s = Some s' → Inv s') →
  Inv s0 →
  for_operations heap_of paths body s0
  = for_each (heap_operations h0 paths) (on_operation body) s0.
Proof.
  intros Hsub Hbody Hs0.
  destruct (deep_value_TObj_inv _ _ _ Hpaths) as (lp & pps & -> & Hlp & Hr).
  revert Hbody. unfold for_operations. simpl heap_operations. rewrite Hlp.
  intros Hbody. simpl in Hok. apply andb_prop in Hok as [Hmap Hitems].
  apply mapping_ok_spec in Hmap as [Hnd Hno].
  rewrite <-(props_rel_keys _ _ _ Hr) in Hnd, Hno.
  apply forallb_Forall in Hitems.
  pose proof (Forall2_and_r _ _ _ _ Hr Hitems) as Hr'.
  set (K := λ p : string * val,
         match snd p with
         | VRef li =>
             match h0 !! li with
             | Some (OObj ims) => map (λ m, (fst p, fst m, snd m)) ims
             | _ => []
             end
         | _ => []
         end) in *.
  assert (∀ e o, e ∈ pps → o ∈ K e → o ∈ flat_map K pps) as Hin.
  { intros e o He Ho. apply list_elem_of_In, in_flat_map.
    exists e. split; by apply list_elem_of_In. }
  assert (∀ e s s', e ∈ pps → Inv s →
            for_each (K e) (on_operation body) s = Some s' → Inv s') as HK.
  { intros e s s' He Hs. apply (for_each_inv Inv); [|done].
    intros o s1 s2 Ho. apply Hbody. by eapply Hin. }
  set (F := λ (path : string) (v : val) (s : S),
         for_each (for_in_keys (heap_of s) v)
           (λ method s,
              match hasOwnProperty (heap_of s) v method with
              | None => None
              | Some false => Some s
              | Some true =>
                  match get_prop (heap_of s) v method with
                  | None => None
                  | Some operation => body path method operation s
                  end
              end) s).
  assert (∀ e s, e ∈ pps → Inv s →
            F (fst e) (snd e) s = for_each (K e) (on_operation body) s)
    as Hinner.
  { intros [p iv] s He Hs.
    pose proof (Forall2_exists_l _ _ _ Hr') as Hall.
    rewrite Forall_forall in Hall.
    destruct (Hall _ He) as ([p' item] & [_ Hiv] & Hitem). simpl in *.
    destruct item as [| | | | | |ms]; try done.
    apply deep_value_TObj_inv in Hiv as (li & ims & -> & Hli & Hrm).
    apply andb_prop in Hitem as [[Hnd' Hno']%mapping_ok_spec _].
    rewrite <-(props_rel_keys _ _ _ Hrm) in Hnd', Hno'.
    unfold F, K. simpl. rewrite Hli, for_each_fmap.
    apply (for_each_entries heap_of Inv li ims (body p)); try done.
    - intros s1 Hs1. eapply lookup_weaken; [done|by apply Hsub].
    - intros m s1 s2 Hm. apply (Hbody (p, fst m, snd m)).
      apply (Hin (p, VRef li)); [done|]. unfold K. simpl. rewrite Hli.
      apply list_elem_of_fmap. by exists m. }
  rewrite for_each_flat_map.
  rewrite (for_each_entries heap_of Inv lp pps F); try done.
  - by apply (for_each_ext_in Inv).
  - intros s Hs. eapply lookup_weaken; [done|by apply Hsub].
  - intros e s s' He Hs. rewrite Hinner by done. by apply HK.
Qed.
End operations.

(** ** The set of tags *)

Section unique_tags.
Import Legacy.
Context (h0 hc : heap) (Hsub : h0 ⊆ hc).

Lemma add_all_tags ops tops (s : list string) :
  Forall2 (operation_rel h0) ops tops →
  for_each ops (on_operation (λ _ _ operation s, add_tags hc operation s))
    (VStr <$> s)
  = Some (VStr <$> foldl add_distinct s
                     (flat_map (λ o, operation_tags (snd o)) tops)).
Proof.
  intros Hr. revert s.
  induction Hr as [|[[p m] v] [[p' m'] t] ops tops (_ & Hv & Hok) _ IH];
    intros s; simpl; [done|].
  unfold on_operation at 1. simpl.
  rewrite (add_tags_spec _ _ Hsub _ _ _ Hv Hok), IH. by rewrite foldl_app.
Qed.

Lemma uniqueTags_spec doc fs :
  deep_value h0 doc (TObj fs) → conforming (TObj fs) = true →
  uniqueTags hc doc = Some (VStr <$> distinct (all_tags (TObj fs))).
Proof.
  intros Hd Hok. unfold uniqueTags, conforming, all_tags, distinct in *.
  destruct (get_prop_obj _ _ Hsub _ _ "paths" Hd) as (paths & -> & Hp).
  rewrite (truthy_deep_value _ _ _ Hp).
  destruct (field (TObj fs) "paths") as [| | b | z | s | ts | ps] eqn:Hf;
    simpl in Hok |- *; try done;
    try (by rewrite (negb_true_iff _) in Hok; rewrite Hok).
  rewrite (for_operations_flat h0 paths ps Hp Hok (λ _, hc) (λ _, True));
    try done.
  apply (add_all_tags _ _ []). by apply heap_operations_rel.
Qed.
End unique_tags.

(** ** The group list *)

Lemma deep_value_group (h : heap) l prefix tag :
  h !! l = Some (Legacy.group prefix (VStr tag)) →
  deep_value h (VRef l) (group_text prefix tag).
Proof.
  intros Hl. apply (deep_value_obj _ _ _ _ Hl). eexists. split; [done|].
  repeat constructor; apply deep_value_str.
Qed.

Section groups.
Import Legacy.
Context (h : heap) (prefix : string) (a : loc).

Lemma push_groups tags : ∀ s hn gs done_,
  extends h s hn → hn !! a = Some (OArr gs) →
  Forall2 (is_group prefix a hn) gs done_ →
  ∃ s' hn' gs',
    for_each (VStr <$> tags)
      (λ tag h, let '(g, h') := alloc (group prefix tag) h in
                array_push h' (VRef a) g) s = Some s'
    ∧ extends h s' hn' ∧ hn' !! a = Some (OArr gs')
    ∧ Forall2 (is_group prefix a hn') gs' (done_ ++ tags).
Proof.
  induction tags as [|tag tags IH]; intros s hn gs done_ He Ha Hgs.
  - exists s, hn, gs. rewrite app_nil_r.
    split; [reflexivity|]. split; [exact He|]. split; [exact Ha|exact Hgs].
  - rewrite fmap_cons, for_each_cons.
    destruct (alloc (group prefix (VStr tag)) s) as [g s1] eqn:Hal.
    apply alloc_spec in Hal as (gl & -> & Hgl & ->).
    destruct He as [-> Hdisj].
    apply lookup_union_None in Hgl as [Hgl1 Hgl2].
    assert (gl ≠ a) as Hne by (intros ->; by rewrite Ha in Hgl2).
    assert (h !! a = None) as Hah by (by eapply map_disjoint_Some_r).
    simpl. rewrite lookup_insert_ne by done.
    rewrite (lookup_union_Some_r _ _ _ _ Hdisj Ha).
    set (hn' := <[a := OArr (gs ++ [VRef gl])]>
                  (<[gl := group prefix (VStr tag)]> hn)).
    destruct (IH (<[a := OArr (gs ++ [VRef gl])]>
                    (<[gl := group prefix (VStr tag)]> (h ∪ hn)))
                 hn' (gs ++ [VRef gl])%list (done_ ++ [tag])%list)
      as (s' & hn2 & gs' & Hrun & He' & Ha' & Hgs').
    + split.
      * unfold hn'. by rewrite !insert_union_r.
      * unfold hn'. by apply map_disjoint_insert_r_2, map_disjoint_insert_r_2.
    + unfold hn'. by rewrite lookup_insert_eq.
    + apply Forall2_app.
      * revert Hgs. apply Forall2_mono. intros gv tg (gl' & -> & Hne' & Hl').
        exists gl'. split_and!; try done. unfold hn'.
        rewrite lookup_insert_ne by done.
        rewrite lookup_insert_ne; [done|]. intros <-. by rewrite Hl' in Hgl2.
      * repeat constructor. exists gl. split_and!; try done. unfold hn'.
        rewrite lookup_insert_ne by done. by rewrite lookup_insert_eq.
    + exists s', hn2, gs'. by rewrite <-(assoc (++)) in Hgs'.
Qed.
End groups.

Lemma make_groups_spec (h0 h : heap) prefix doc fs :
  h0 ⊆ h → deep_value h0 doc (TObj fs) → conforming (TObj fs) = true →
  ∃ groups h3 hn,
    Legacy.make_groups prefix doc h = Some (groups, h3)
    ∧ extends h h3 hn
    ∧ deep_value hn groups (groups_text prefix (TObj fs)).
Proof.
  intros Hsub Hd Hok. unfold Legacy.make_groups.
  destruct (alloc (Legacy.group prefix (VStr Legacy.all)) h) as [g0 h1] eqn:H1.
  destruct (alloc (OArr [g0]) h1) as [groups h2] eqn:H2.
  apply alloc_spec in H1 as (a0 & -> & Ha0 & ->).
  apply alloc_spec in H2 as (a & -> & Ha & ->).
  assert (a ≠ a0) as Hne by (intros ->; by rewrite lookup_insert_eq in Ha).
  rewrite lookup_insert_ne in Ha by done.
  set (h2 := <[a := OArr [VRef a0]]>
               (<[a0 := Legacy.group prefix (VStr Legacy.all)]> h)).
  assert (h ⊆ h2) as Hsub2.
  { unfold h2. etrans; [|apply insert_subseteq; by rewrite lookup_insert_ne].
    by apply insert_subseteq. }
  rewrite (uniqueTags_spec h0 h2 (transitivity Hsub Hsub2) doc fs Hd Hok).
  set (hn := <[a := OArr [VRef a0]]>
               {[a0 := Legacy.group prefix (VStr Legacy.all)]} : gmap nat object).
  destruct (push_groups h prefix a (distinct (all_tags (TObj fs))) h2 hn
              [VRef a0] [Legacy.all]) as (s' & hn' & gs' & -> & He & Ha' & Hgs).
  - unfold h2, hn. split.
    + rewrite <-insert_union_r by done.
      by rewrite <-insert_union_singleton_r.
    + by apply map_disjoint_insert_r_2, map_disjoint_singleton_r_2.
  - unfold hn. by rewrite lookup_insert_eq.
  - repeat constructor. exists a0. split_and!; try done. unfold hn.
    rewrite lookup_insert_ne by done. by rewrite lookup_singleton_eq.
  - exists (VRef a), s', hn'. split_and!; try done.
    apply (deep_value_arr _ _ _ _ Ha'). eexists. split; [done|].
    change (group_text prefix Legacy.all
              :: map (group_text prefix) (distinct (all_tags (TObj fs))))
      with (group_text prefix <$>
              ([Legacy.all] ++ distinct (all_tags (TObj fs)))%list).
    apply Forall2_fmap_r. revert Hgs. apply Forall2_mono.
    intros gv tag (gl & -> & _ & Hgl). by apply deep_value_group.
Qed.

(** ** Assigning to a member of the stored document *)

(** What is reached from the members of an object does not pass through
    the object itself, when the object has a deep value. *)
Lemma deep_value_children_delete (h : heap) l o t :
  h !! l = Some o → deep_value h (VRef l) t →
  ∃ ts, t = rebuild o ts
        ∧ Forall2 (λ v t', deep_value (delete l h) v t') (children o) ts.
Proof.
  intros Hl [n Hn]. revert t Hn.
  induction (lt_wf n) as [n _ IH]. intros t Hn. pose proof Hn as Hn0.
  apply snapshot_ref_Some in Hn as (n' & o' & ts & -> & Hl' & Hc & ->).
  rewrite Hl in Hl'. injection Hl' as <-.
  assert (∀ G : Prop,
            (∀ m t', m ≤ n' → snapshot m h (VRef l) = Some t' → G) →
            Forall2 (λ v t', deep_value (delete l h) v t') (children o) ts
            ∨ G) as Hcases.
  { intros G HG. clear Hn0 IH.
    induction Hc as [|v t' vs ts' Hv _ IHc]; [left; constructor|].
    destruct IHc as [Hvs|Hvs]; [|by right].
    destruct (snapshot_touch _ _ _ _ l Hv) as [Hv'|(m & t'' & Hle & Hv')].
    - left. constructor; [by exists n'|done].
    - right. eauto. }
  destruct (Hcases (∃ ts0, rebuild o ts = rebuild o ts0
      ∧ Forall2 (λ v t', deep_value (delete l h) v t') (children o) ts0))
    as [Hc'|Hc']; [|by exists ts|done].
  intros m t' Hle Hm.
  rewrite (snapshot_functional _ _ _ _ _ _ Hn0 Hm).
  apply (IH m); [lia|done].
Qed.

Lemma delete_subseteq_insert (h h' : heap) l o :
  h ⊆ h' → delete l h ⊆ <[l := o]> h'.
Proof.
  intros Hsub. apply map_subseteq_spec. intros i x Hi.
  apply lookup_delete_Some in Hi as [Hne Hi].
  rewrite lookup_insert_ne by done. by eapply lookup_weaken.
Qed.

(** [doc[k] = x] on the stored document, after other objects [hn] were
    allocated. *)
Lemma set_prop_document (h h2 hn : heap) l fs k x tx :
  deep_value h (VRef l) (TObj fs) →
  extends h h2 hn →
  deep_value (delete l h ∪ hn) x tx →
  ∃ ps h3,
    h !! l = Some (OObj ps)
    ∧ set_prop h2 (VRef l) k x = Some h3
    ∧ h3 = <[l := OObj (assoc_set ps k x)]> h2
    ∧ deep_value h3 (VRef l) (TObj (assoc_set fs k tx)).
Proof.
  intros Hd He Hx.
  destruct (deep_value_TObj_inv _ _ _ Hd) as (l' & ps & [= <-] & Hl & _).
  destruct (deep_value_children_delete _ _ _ _ Hl Hd) as (ts & Ht & Hc).
  apply props_rel_zip in Hc. simpl in Ht. injection Ht as Ht.
  rewrite <-Ht in Hc.
  exists ps, (<[l := OObj (assoc_set ps k x)]> h2).
  pose proof (extends_subseteq _ _ _ He) as Hsub.
  simpl. rewrite (lookup_weaken _ _ _ _ Hl Hsub). split_and!; try done.
  assert (delete l h ∪ hn ⊆ <[l := OObj (assoc_set ps k x)]> h2) as Hsub'.
  { destruct He as [-> Hdisj]. apply map_subseteq_spec. intros i y Hi.
    apply lookup_union_Some_raw in Hi as [Hi|[_ Hi]].
    - apply lookup_delete_Some in Hi as [Hne Hi].
      rewrite lookup_insert_ne by done. by apply lookup_union_Some_l.
    - assert (i ≠ l).
      { intros ->. by rewrite (map_disjoint_Some_l _ _ _ _ Hdisj Hl) in Hi. }
      rewrite lookup_insert_ne by done. by apply lookup_union_Some_r. }
  apply (deep_value_obj _ l (assoc_set ps k x)); [by rewrite lookup_insert_eq|].
  eexists. split; [done|].
  apply (props_rel_weaken (delete l h ∪ hn)); [done|].
  apply props_rel_set; [|done].
  eapply props_rel_weaken; [|done]. apply map_union_subseteq_l.
Qed.

(** ** Distinct tags *)

Lemma add_distinct_spec s x :
  NoDup s → NoDup (add_distinct s x) ∧ ∀ y, y ∈ add_distinct s x ↔ y ∈ s ∨ y = x.
Proof.
  intros Hnd. unfold add_distinct. case_bool_decide as Hx.
  - split; [done|]. intros y. split; [by left|]. by intros [?| ->].
  - split.
    + apply NoDup_app. split_and!; [done| |apply NoDup_singleton].
      intros y Hy ->%list_elem_of_singleton. done.
    + intros y. rewrite elem_of_app, list_elem_of_singleton. done.
Qed.

Lemma foldl_add_distinct_spec l : ∀ s,
  NoDup s →
  NoDup (foldl add_distinct s l) ∧
  ∀ y, y ∈ foldl add_distinct s l ↔ y ∈ s ∨ y ∈ l.
Proof.
  induction l as [|x l IH]; intros s Hnd; simpl.
  - split; [done|]. intros y. rewrite elem_of_nil. naive_solver.
  - destruct (add_distinct_spec s x Hnd) as [Hnd' Hin].
    destruct (IH _ Hnd') as [Hnd'' Hin'']. split; [done|].
    intros y. rewrite Hin'', Hin, elem_of_cons. naive_solver.
Qed.

Lemma distinct_spec l :
  NoDup (distinct l) ∧ ∀ y, y ∈ distinct l ↔ y ∈ l.
Proof.
  destruct (foldl_add_distinct_spec l [] (NoDup_nil_2)) as [Hnd Hin].
  split; [done|]. intros y. rewrite (Hin y), elem_of_nil. naive_solver.
Qed.

Lemma all_tags_spec doc tag :
  tag ∈ all_tags doc ↔
  ∃ o, o ∈ operations_of (field doc "paths") ∧ tag ∈ operation_tags (snd o).
Proof.
  unfold all_tags. rewrite list_elem_of_In, in_flat_map.
  split; intros (o & Ho & Ht); exists o; by rewrite ?list_elem_of_In in *.
Qed.

(** ** What JSON.stringify writes of the answers *)

Lemma prune_group_text prefix tag :
  prune (group_text prefix tag) = group_text prefix tag.
Proof. done. Qed.

Lemma prune_TArr ts :
  Forall (λ t, prune t = t ∧ is_undef t = false) ts → prune (TArr ts) = TArr ts.
Proof.
  intros Hts. simpl. f_equal.
  induction Hts as [|t ts [Ht Hu] _ IH]; simpl; [done|].
  rewrite Ht, IH. by destruct t.
Qed.

Lemma prune_groups_text prefix doc :
  prune (groups_text prefix doc) = groups_text prefix doc.
Proof.
  apply prune_TArr. constructor; [done|].
  apply Forall_forall. intros t (tag & <- & _)%list_elem_of_In%in_map_iff. done.
Qed.

Lemma field_prune_assoc_set fs k t :
  is_undef (prune t) = false →
  field (prune (TObj (assoc_set fs k t))) k = prune t.
Proof.
  intros Ht. simpl. induction fs as [|[k' y] fs IH]; simpl.
  - rewrite Ht. simpl. by rewrite String.eqb_refl.
  - destruct (String.eqb k' k) eqn:Hk; simpl.
    + rewrite Ht. simpl. by rewrite String.eqb_refl.
    + destruct (is_undef (prune y)); simpl; [done|]. by rewrite Hk.
Qed.

(** ** The entries of [groupPaths] *)

Lemma assoc_get_map {A B} (f : A → B) (E : list (string * A)) k :
  assoc_get (map (λ e, (fst e, f (snd e))) E) k = f <$> assoc_get E k.
Proof.
  induction E as [|[k' x] E IH]; simpl; [done|].
  by destruct (String.eqb k' k).
Qed.

Lemma assoc_set_map {A B} (f : A → B) (E : list (string * A)) k y :
  assoc_set (map (λ e, (fst e, f (snd e))) E) k (f y)
  = map (λ e, (fst e, f (snd e))) (assoc_set E k y).
Proof.
  induction E as [|[k' x] E IH]; simpl; [done|].
  destruct (String.eqb k' k); simpl; [done|]. by rewrite IH.
Qed.

Lemma assoc_get_split {A} (E : list (string * A)) k y0 :
  assoc_get E k = Some y0 →
  ∃ E1 E2, E = (E1 ++ (k, y0) :: E2)%list
    ∧ ∀ y, assoc_set E k y = (E1 ++ (k, y) :: E2)%list.
Proof.
  induction E as [|[k' x] E IH]; simpl; [done|].
  destruct (String.eqb_spec k' k) as [->|Hne].
  - intros [= ->]. by exists [], E.
  - intros (E1 & E2 & -> & Hset)%IH. exists ((k', x) :: E1), E2.
    split; [done|]. intros y. simpl. by rewrite Hset.
Qed.

Lemma assoc_get_app_new {A} (E : list (string * A)) k y :
  assoc_get E k = None → assoc_get (E ++ [(k, y)]) k = Some y.
Proof.
  induction E as [|[k' x] E IH]; simpl.
  - by rewrite String.eqb_refl.
  - destruct (String.eqb k' k); [done|apply IH].
Qed.

Lemma get_prop_plain (s : heap) l ps k :
  s !! l = Some (OObj ps) →
  get_prop s (VRef l) k = Some (default VUndefined (assoc_get ps k)).
Proof. intros Hl. simpl. by rewrite Hl. Qed.

Lemma set_prop_plain (s : heap) l ps k x :
  s !! l = Some (OObj ps) →
  set_prop s (VRef l) k x = Some (<[l := OObj (assoc_set ps k x)]> s).
Proof. intros Hl. simpl. by rewrite Hl. Qed.

Section keep.
Import Legacy.
Context (h0 h : heap) (Hsub0 : h0 ⊆ h) (g : loc) (gname : string).
#[local] Arguments get_prop : simpl never.
#[local] Arguments set_prop : simpl never.

Lemma keep_operation_spec s acc p m v t :
  group_paths_rep h0 h g s acc →
  deep_value h0 v t → operation_ok t = true →
  ∃ s', keep_operation (VRef g) gname p m v s = Some s'
        ∧ group_paths_rep h0 h g s' (keep_step gname acc (p, m, t)).
Proof.
  intros (Hsub & Hg & E & -> & Hsg & Hnd & HE) Hv Hok.
  unfold keep_operation, keep_step. cbn [fst snd].
  rewrite (carries_tag_spec h0 s (transitivity Hsub0 Hsub) v t gname Hv Hok).
  case_bool_decide as Htag.
  2:{ exists s. split; [done|]. split; [done|]. split; [done|]. by exists E. }
  rewrite (get_prop_plain _ _ _ _ Hsg).
  rewrite (assoc_get_map (λ x, VRef (fst x)) E p).
  unfold upsert. rewrite (assoc_get_map snd E p).
  pose proof (assoc_get_map (λ x, VRef (fst x)) E p) as Hget.
  destruct (assoc_get E p) as [[e ms]|] eqn:HEp; cbn in Hget |- *.
  - (* the path has an entry already *)
    rewrite (set_prop_plain _ _ _ _ _ Hsg).
    rewrite (assoc_set_same _ _ _ Hget), (insert_id _ _ _ Hsg).
    rewrite (get_prop_plain _ _ _ _ Hsg), Hget. simpl default.
    destruct (assoc_get_split _ _ _ HEp) as (E1 & E2 & HE12 & Hset).
    pose proof (assoc_set_map snd E p (e, assoc_set ms m t)) as Hacc.
    rewrite Hset in Hacc. simpl in Hacc. rewrite Hacc. clear Hacc Hset.
    subst E.
    apply Forall_app in HE as [HE1 HE2].
    apply Forall_cons in HE2 as [(Hne & Hhe & ims & Hse & Hims) HE2].
    simpl in Hne, Hhe, Hse, Hims.
    rewrite (set_prop_plain _ _ _ _ _ Hse). eexists. split; [done|].
    split; [by apply insert_subseteq_r|]. split; [done|].
    exists (E1 ++ (p, (e, assoc_set ms m t)) :: E2)%list.
    split; [done|]. rewrite lookup_insert_ne by done.
    split; [by rewrite Hsg, !map_app|].
    split; [by rewrite map_app in Hnd |- *|].
    rewrite map_app in Hnd. simpl in Hnd.
    apply NoDup_app in Hnd as (_ & Hnd1 & Hnd2).
    apply NoDup_cons in Hnd2 as [Hnd2 _].
    apply Forall_app. split; [|apply Forall_cons; split].
    + apply Forall_forall. intros x Hx. rewrite Forall_forall in HE1.
      destruct (HE1 x Hx) as (? & ? & ims' & Hx' & ?).
      split_and!; try done. exists ims'. split; [|done].
      rewrite lookup_insert_ne; [done|]. intros Heq.
      apply (Hnd1 (fst (snd x))).
      * apply list_elem_of_In, in_map_iff. exists x. split; [done|].
        by apply list_elem_of_In.
      * rewrite <-Heq. apply elem_of_cons. by left.
    + simpl. split_and!; try done. exists (assoc_set ims m v).
      split; [by rewrite lookup_insert_eq|]. by apply props_rel_set.
    + apply Forall_forall. intros x Hx. rewrite Forall_forall in HE2.
      destruct (HE2 x Hx) as (? & ? & ims' & Hx' & ?).
      split_and!; try done. exists ims'. split; [|done].
      rewrite lookup_insert_ne; [done|]. intros Heq.
      apply Hnd2. rewrite Heq.
      apply list_elem_of_In, in_map_iff. exists x. split; [done|].
      by apply list_elem_of_In.
  - (* a new entry *)
    destruct (alloc (OObj []) s) as [entry s1] eqn:Hal.
    apply alloc_spec in Hal as (e & -> & Hse & ->). cbv beta iota.
    assert (e ≠ g) as Hne by (intros ->; by rewrite Hsg in Hse).
    assert (h !! e = None) as Hhe.
    { destruct (h !! e) eqn:Hhe; [|done].
      by rewrite (lookup_weaken _ _ _ _ Hhe Hsub) in Hse. }
    assert (<[e := OObj []]> s !! g
            = Some (OObj (map (λ x, (fst x, VRef (fst (snd x)))) E))) as Hsg1.
    { by rewrite lookup_insert_ne. }
    rewrite (set_prop_plain _ _ _ _ _ Hsg1), (assoc_set_new _ _ _ Hget).
    set (s2 := <[g := _]> (<[e := OObj []]> s)).
    assert (s2 !! g = Some (OObj (map (λ x, (fst x, VRef (fst (snd x)))) E
                                    ++ [(p, VRef e)]))) as Hsg2.
    { unfold s2. by rewrite lookup_insert_eq. }
    rewrite (get_prop_plain _ _ _ _ Hsg2), (assoc_get_app_new _ _ _ Hget).
    simpl default.
    assert (s2 !! e = Some (OObj [])) as Hse2.
    { unfold s2. by rewrite lookup_insert_ne, lookup_insert_eq. }
    rewrite (set_prop_plain _ _ _ _ _ Hse2). eexists. split; [done|].
    split.
    { unfold s2. do 3 (apply insert_subseteq_r; [done|]). done. }
    split; [done|]. exists (E ++ [(p, (e, [(m, t)]))])%list.
    rewrite !map_app. simpl. split; [done|].
    rewrite lookup_insert_ne by done. split; [done|].
    split.
    + apply NoDup_app. split_and!; [done| |apply NoDup_singleton].
      intros x Hx ->%list_elem_of_singleton.
      apply list_elem_of_In, in_map_iff in Hx as (y & Hy & Hin).
      rewrite Forall_forall in HE.
      apply list_elem_of_In in Hin.
      destruct (HE y Hin) as (_ & _ & ims & Hy' & _). congruence.
    + apply Forall_app. split.
      * apply Forall_forall. intros x Hx. rewrite Forall_forall in HE.
        destruct (HE x Hx) as (? & ? & ims' & Hx' & ?).
        split_and!; try done. exists ims'. split; [|done].
        assert (fst (snd x) ≠ e) by congruence.
        unfold s2. by rewrite !lookup_insert_ne.
      * repeat constructor; simpl; try done.
        exists [(m, v)]. split; [by rewrite lookup_insert_eq|].
        by repeat constructor.
Qed.
End keep.

Section filter.
Import Legacy.
Context (h0 h : heap) (Hsub0 : h0 ⊆ h) (g : loc) (gname : string).

Lemma keep_operations_spec ops tops : ∀ s acc,
  Forall2 (operation_rel h0) ops tops →
  group_paths_rep h0 h g s acc →
  ∃ s', for_each ops (on_operation (keep_operation (VRef g) gname)) s = Some s'
        ∧ group_paths_rep h0 h g s' (foldl (keep_step gname) acc tops).
Proof.
  intros s acc Hr. revert s acc.
  induction Hr as [|[[p m] v] [[p' m'] t] ops tops (Hpm & Hv & Hok) _ IH];
    intros s acc Hrep.
  - by exists s.
  - simpl in Hpm, Hv, Hok. injection Hpm as <- <-.
    destruct (keep_operation_spec h0 h Hsub0 g gname s acc p m v t Hrep Hv Hok)
      as (s1 & Hs1 & Hrep1).
    destruct (IH _ _ Hrep1) as (s' & Hs' & Hrep').
    exists s'. split; [|done]. rewrite for_each_cons.
    unfold on_operation at 1. simpl. by rewrite Hs1.
Qed.

Lemma filter_paths_spec paths pathsT s :
  deep_value h0 paths pathsT → paths_ok pathsT = true →
  group_paths_rep h0 h g s [] →
  ∃ s', filter_paths (VRef g) gname paths s = Some s'
        ∧ group_paths_rep h0 h g s'
            (foldl (keep_step gname) [] (operations_of pathsT)).
Proof.
  intros Hp Hok Hrep. unfold filter_paths.
  rewrite (truthy_deep_value _ _ _ Hp).
  destruct pathsT as [| | b | z | s0 | ts | ps]; simpl in Hok |- *;
    try (by exists s); try (by rewrite (negb_true_iff _) in Hok;
                              rewrite Hok; exists s).
  pose proof (heap_operations_rel h0 paths ps Hp Hok) as Hrel.
  rewrite (for_operations_flat h0 paths ps Hp Hok id
             (λ s, ∃ acc, group_paths_rep h0 h g s acc)).
  - by apply keep_operations_spec.
  - intros s1 (acc & Hsub1 & _). by etrans.
  - intros o s1 s2 Ho (acc & Hrep1) Hrun.
    pose proof (Forall2_exists_l _ _ _ Hrel) as Hall.
    rewrite Forall_forall in Hall.
    destruct (Hall o Ho) as ([[p' m'] t] & Hpm & Hv & Hokt).
    destruct o as [[p m] v]. simpl in Hpm, Hv, Hokt.
    destruct (keep_operation_spec h0 h Hsub0 g gname s1 acc p m v t
                Hrep1 Hv Hokt) as (s3 & Hs3 & Hrep3).
    unfold on_operation in Hrun. simpl in Hrun.
    rewrite Hs3 in Hrun. injection Hrun as <-. eauto.
  - by exists [].
Qed.
End filter.

(** ** The entries kept, in the words of the specification *)

Lemma assoc_set_app_last {A} (acc : list (string * A)) p k y :
  assoc_get acc p = None →
  assoc_set (acc ++ [(p, k)]) p y = (acc ++ [(p, y)])%list.
Proof.
  induction acc as [|[k' x] acc IH]; simpl.
  - by rewrite String.eqb_refl.
  - destruct (String.eqb k' p); [done|]. intros H. by rewrite IH.
Qed.

Section kept.
Context (g : string).
Local Open Scope list_scope.

Lemma keep_methods_present (acc : list (string * list (string * tree))) p ms :
  ∀ k,
  assoc_get acc p = None → NoDup (k.*1 ++ ms.*1) →
  foldl (keep_step g) (acc ++ [(p, k)])
    (map (λ m, (p, fst m, snd m)) ms)
  = (acc ++ [(p, k ++ List.filter (carries g) ms)])%list.
Proof.
  induction ms as [|[m t] ms IH]; intros k Hacc Hnd; simpl.
  - by rewrite app_nil_r.
  - apply NoDup_app in Hnd as (Hk & Hdisj & Hms).
    apply NoDup_cons in Hms as [Hm Hms].
    unfold keep_step at 2, carries at 1. simpl.
    case_bool_decide as Htag.
    + unfold upsert. rewrite (assoc_get_app_new _ _ _ Hacc).
      rewrite (assoc_set_app_last _ _ _ _ Hacc).
      assert (assoc_get k m = None) as Hkm.
      { apply assoc_get_None. intros Hin. apply (Hdisj _ Hin).
        apply elem_of_cons. by left. }
      rewrite (assoc_set_new _ _ _ Hkm), IH; [by rewrite <-(assoc (++))|done|].
      rewrite fmap_app. simpl. rewrite <-(assoc (++)). simpl.
      apply NoDup_app. split_and!; [done| |by apply NoDup_cons].
      intros x Hx. by apply Hdisj.
    + apply IH; [done|]. apply NoDup_app. split_and!; [done| |done].
      intros x Hx Hin. apply (Hdisj _ Hx). apply elem_of_cons. by right.
Qed.

Lemma keep_methods_absent (acc : list (string * list (string * tree))) p ms :
  assoc_get acc p = None → NoDup (ms.*1) →
  foldl (keep_step g) acc (map (λ m, (p, fst m, snd m)) ms)
  = (acc ++ match List.filter (carries g) ms with
            | [] => []
            | k => [(p, k)]
            end)%list.
Proof.
  induction ms as [|[m t] ms IH]; intros Hacc Hnd; simpl.
  - by rewrite app_nil_r.
  - unfold keep_step at 2, carries at 1. simpl.
    apply NoDup_cons in Hnd as [Hm Hms].
    case_bool_decide as Htag.
    + unfold upsert. rewrite Hacc.
      rewrite (keep_methods_present acc p ms [(m, t)] Hacc); [done|].
      simpl. by apply NoDup_cons.
    + by apply IH.
Qed.

Lemma keep_paths ps : ∀ acc,
  NoDup (ps.*1) → (∀ p, p ∈ ps.*1 → assoc_get acc p = None) →
  Forall (λ p, path_item_ok (snd p) = true) ps →
  foldl (keep_step g) acc (operations_of (TObj ps))
  = (acc ++ tagged_entries g (TObj ps))%list.
Proof.
  induction ps as [|[p item] ps IH]; intros acc Hnd Hacc Hok; simpl.
  - by rewrite app_nil_r.
  - apply NoDup_cons in Hnd as [Hp Hnd].
    apply Forall_cons in Hok as [Hitem Hok]. simpl in Hitem.
    destruct item as [| | | | | |ms]; try done.
    apply andb_prop in Hitem as [[Hndm _]%mapping_ok_spec _].
    rewrite foldl_app.
    rewrite (keep_methods_absent acc p ms); [|apply Hacc; by left|done].
    simpl in IH. rewrite IH; [|done| |done].
    + unfold tagged_methods.
      destruct (List.filter (carries g) ms); simpl;
        by rewrite <-?(assoc (++)), ?app_nil_r.
    + intros p' Hp'.
      assert (assoc_get acc p' = None) as Hacc' by (apply Hacc; by right).
      destruct (List.filter (carries g) ms); [by rewrite app_nil_r|].
      apply assoc_get_None. rewrite fmap_app, not_elem_of_app. split.
      * by apply assoc_get_None.
      * simpl. intros ->%list_elem_of_singleton. done.
Qed.

Lemma kept_entries paths :
  paths_ok paths = true →
  foldl (keep_step g) [] (operations_of paths) = tagged_entries g paths.
Proof.
  intros Hok. destruct paths as [| | | | | |ps]; try done.
  simpl in Hok. apply andb_prop in Hok as [[Hnd _]%mapping_ok_spec Hitems].
  apply forallb_Forall in Hitems. by apply (keep_paths ps []).
Qed.

(** A path is kept exactly when one of its operations carries the tag,
    and no kept path is empty. *)
Lemma tagged_entries_spec paths p :
  paths_ok paths = true →
  p ∈ (tagged_entries g paths).*1 ↔
  ∃ m t, (p, m, t) ∈ operations_of paths ∧ g ∈ operation_tags t.
Proof.
  intros Hok. destruct paths as [| | | | | |ps];
    try (simpl; split; [by intros ?%elem_of_nil|by intros (?&?&?%elem_of_nil&_)]).
  simpl in Hok. apply andb_prop in Hok as [_ Hitems].
  apply forallb_Forall in Hitems. simpl.
  induction Hitems as [|[p' item] ps Hitem _ IH]; simpl.
  { split; [by intros ?%elem_of_nil|by intros (?&?&?%elem_of_nil&_)]. }
  destruct item as [| | | | | |ms]; try done. simpl.
  assert ((∃ m t, (m, t) ∈ List.filter (carries g) ms) ↔
          ∃ m t, (m, t) ∈ ms ∧ g ∈ operation_tags t) as Hfilter.
  { split; intros (m & t & H); exists m, t.
    - apply list_elem_of_In, filter_In in H as [H1 H2].
      split; [by apply list_elem_of_In|]. by apply bool_decide_eq_true in H2.
    - destruct H as [H1 H2]. apply list_elem_of_In, filter_In.
      split; [by apply list_elem_of_In|]. by apply bool_decide_eq_true. }
  assert (∀ m t, (p, m, t) ∈ map (λ m0 : string * tree, (p', m0.1, m0.2)) ms
                 ↔ p = p' ∧ (m, t) ∈ ms) as Hmap.
  { intros m t. rewrite list_elem_of_In, in_map_iff. split.
    - intros ([m0 t0] & [= <- <- <-] & Hin). by rewrite list_elem_of_In.
    - intros [-> Hin]. exists (m, t). by rewrite <-list_elem_of_In. }
  destruct (List.filter (carries g) ms) as [|[m0 t0] k] eqn:Hk.
  - rewrite IH. split.
    + intros (m & t & Hin & Ht). exists m, t. split; [|done].
      apply elem_of_app. by right.
    + intros (m & t & [Hin|Hin]%elem_of_app & Ht); [|by exists m, t].
      apply Hmap in Hin as [-> Hin].
      destruct (proj2 Hfilter) as (? & ? & []%elem_of_nil). by exists m, t.
  - simpl. rewrite elem_of_cons, IH. split.
    + intros [->|(m & t & Hin & Ht)].
      * destruct (proj1 Hfilter) as (m & t & Hin & Ht).
        { exists m0, t0. by left. }
        exists m, t. split; [|done]. apply elem_of_app. left. by apply Hmap.
      * exists m, t. split; [|done]. apply elem_of_app. by right.
    + intros (m & t & [Hin|Hin]%elem_of_app & Ht).
      * left. by apply Hmap in Hin as [-> _].
      * right. by exists m, t.
Qed.

Lemma tagged_entries_nonempty paths p ms :
  (p, ms) ∈ tagged_entries g paths → ms ≠ [].
Proof.
  destruct paths as [| | | | | |ps]; try by intros ?%elem_of_nil.
  simpl. intros Hin%list_elem_of_In.
  induction ps as [|[p' item] ps IH]; simpl in Hin; [done|].
  destruct (tagged_methods g item) eqn:Hk; [by apply IH|].
  destruct Hin as [[= <- <-]|Hin]; [done|by apply IH].
Qed.
End kept.

(** ** The answer to a per-tag request *)

Lemma legacy_guard_ref l : Legacy.guard (VRef l) = false.
Proof. done. Qed.

Lemma deep_value_new_part (h hn : heap) l v t :
  h ##ₘ hn → deep_value hn v t → deep_value (delete l h ∪ hn) v t.
Proof.
  intros Hdisj. apply deep_value_weaken, map_union_subseteq_r.
  by apply map_disjoint_delete_l.
Qed.

Lemma extends_difference (h s : heap) : h ⊆ s → extends h s (s ∖ h).
Proof.
  intros Hsub. split; [by rewrite map_difference_union|].
  by apply map_disjoint_difference_r1.
Qed.

Lemma group_paths_deep_value (h s : heap) l g acc :
  group_paths_rep (delete l h) h g s acc →
  deep_value (delete l h ∪ s ∖ h) (VRef g) (entries_text acc).
Proof.
  intros (Hsub & Hg & E & -> & Hsg & _ & HE).
  assert (∀ x o, h !! x = None → s !! x = Some o →
            (delete l h ∪ s ∖ h) !! x = Some o) as Hnew.
  { intros x o Hx Hs. rewrite lookup_union_r.
    - by apply lookup_difference_Some.
    - apply lookup_delete_None. by right. }
  apply (deep_value_obj _ _ _ _ (Hnew _ _ Hg Hsg)).
  eexists. split; [done|]. rewrite map_map. simpl. clear Hsg.
  induction HE as [|[p [e ms]] E (_ & He & ims & Hse & Hims) _ IH];
    simpl in *; [constructor|]. constructor; [|done].
  split; [done|]. simpl.
  apply (deep_value_obj _ _ _ _ (Hnew _ _ He Hse)). exists ms. split; [done|].
  eapply props_rel_weaken; [|done]. apply map_union_subseteq_l.
Qed.

Lemma prefix_api_docs_not_config (u : string) :
  String.prefix "/api-docs/" u = true →
  String.eqb u "/v3/api-docs/swagger-config" = false
  ∧ String.eqb u "/swagger-resources" = false.
Proof.
  intros Hp. split; apply String.eqb_neq; intros ->; by vm_compute in Hp.
Qed.

Section tag_filter.
Import Legacy.
Context (self : Knife4jDoc) (prefix : string) (req : request).
Context (h : heap) (l : loc) (fs : list (string * tree)).
Context (Hself : swaggerJson self = VRef l).
Context (Hdoc : deep_value h (VRef l) (TObj fs)).
Context (Hurl : String.prefix "/api-docs/" (url req) = true).

(** The request for all: the stored document as it is. *)
Lemma serveExpress_all res :
  groupName_of req = all →
  ∃ h1, serveExpress self prefix req res h
          = Returned (sent (VRef l) (prune (TObj fs)) res) false h1
        ∧ h ⊆ h1.
Proof.
  intros Hall. unfold serveExpress.
  rewrite Hself, legacy_guard_ref.
  destruct (prefix_api_docs_not_config _ Hurl) as [-> ->]. rewrite Hurl.
  destruct (deep_value_TObj_inv _ _ _ Hdoc) as (l' & ps & [= <-] & Hl & _).
  rewrite (get_prop_plain _ _ _ _ Hl).
  destruct (alloc (OObj []) h) as [gp h1] eqn:Hal.
  apply alloc_spec in Hal as (g & -> & Hg & ->).
  rewrite Hall, String.eqb_refl.
  exists (<[g := OObj []]> h). split; [|by apply insert_subseteq].
  apply res_json_spec. eapply deep_value_weaken; [|done].
  by apply insert_subseteq.
Qed.

(** The request for one tag: [paths] of the stored document is replaced by
    a new object, which holds the tagged operations. *)
Lemma serveExpress_tag res :
  conforming (TObj fs) = true →
  groupName_of req ≠ all →
  ∃ ps g h1,
    serveExpress self prefix req res h
      = Returned
          (sent (VRef l)
             (prune (with_field (TObj fs) "paths"
                       (tagged_paths (groupName_of req)
                          (field (TObj fs) "paths")))) res)
          false h1
    ∧ h !! l = Some (OObj ps) ∧ h !! g = None
    ∧ h1 !! l = Some (OObj (assoc_set ps "paths" (VRef g)))
    ∧ deep_value h1 (VRef l)
        (with_field (TObj fs) "paths"
           (tagged_paths (groupName_of req) (field (TObj fs) "paths"))).
Proof.
  intros Hok Hname. unfold serveExpress.
  rewrite Hself, legacy_guard_ref.
  destruct (prefix_api_docs_not_config _ Hurl) as [-> ->]. rewrite Hurl.
  destruct (deep_value_TObj_inv _ _ _ Hdoc) as (l' & ps & [= <-] & Hl & _).
  rewrite (get_prop_plain _ _ _ _ Hl).
  destruct (alloc (OObj []) h) as [gp h1] eqn:Hal.
  apply alloc_spec in Hal as (g & -> & Hg & ->).
  apply String.eqb_neq in Hname. rewrite Hname.
  destruct (deep_value_children_delete _ _ _ _ Hl Hdoc) as (ts & Ht & Hc).
  apply props_rel_zip in Hc. simpl in Ht. injection Ht as Ht.
  rewrite <-Ht in Hc.
  pose proof (props_rel_get _ _ _ "paths" Hc) as Hpaths.
  destruct (filter_paths_spec (delete l h) h (delete_subseteq _ _) g
              (groupName_of req) _ _ (<[g := OObj []]> h) Hpaths Hok)
    as (s' & -> & Hrep).
  { split; [by apply insert_subseteq|]. split; [done|]. exists [].
    split; [done|]. split; [by rewrite lookup_insert_eq|].
    split; constructor. }
  rewrite (kept_entries _ _ Hok) in Hrep.
  pose proof Hrep as [Hsub _].
  destruct (set_prop_document h s' (s' ∖ h) l fs "paths" (VRef g)
              (tagged_paths (groupName_of req) (field (TObj fs) "paths"))
              Hdoc (extends_difference _ _ Hsub)
              (group_paths_deep_value _ _ _ _ _ Hrep))
    as (ps' & h3 & Hl' & -> & Hh3 & Hd3).
  rewrite Hl in Hl'. injection Hl' as <-.
  exists ps, g, h3. split; [by apply res_json_spec|].
  split; [done|]. split; [done|]. split; [|done].
  by rewrite Hh3, lookup_insert_eq.
Qed.
End tag_filter.

(** ** Members of a serialised document *)

Lemma field_prune fs k t :
  assoc_get fs k = Some t → is_undef (prune t) = false →
  field (prune (TObj fs)) k = prune t.
Proof.
  intros Hget Ht. simpl. induction fs as [|[k' y] fs IH]; simpl in *; [done|].
  destruct (String.eqb k' k) eqn:Hk.
  - injection Hget as ->. rewrite Ht. simpl. by rewrite Hk.
  - destruct (is_undef (prune y)); simpl; [by apply IH|].
    rewrite Hk. by apply IH.
Qed.

Lemma keys_prune_entries_text (E : list (string * list (string * tree))) :
  keys (prune (entries_text E)) = E.*1.
Proof.
  unfold entries_text. simpl.
  induction E as [|[p ms] E IH]; [done|]. cbn in IH |- *. by f_equal.
Qed.

Lemma field_prune_with_field fs k t :
  is_undef (prune t) = false →
  field (prune (with_field (TObj fs) k t)) k = prune t.
Proof. apply field_prune_assoc_set. Qed.

(** * The current protocol: claims *)

Section current_claims.
Import Current.

(** C1: for every JSON-serializable object [D] stored in the adapter and
    every prefix [P], the request [P/swagger.json] is answered, without
    calling [next], with a body that is deep-equal to [D] and is a copy:
    the value handed to [res.json] is not the stored document, and it is
    made of newly allocated objects only. *)
Theorem swagger_json_is_deep_copy proc self prefix req res (h : heap) l t :
  swaggerJson self = VRef l →
  json_serializable h (VRef l) t →
  url req = prefix ++ "/swagger.json" →
  ∃ b h1 hn,
    serveExpress proc self prefix req res h = Returned (sent b t res) false h1
    ∧ deep_equal h (swaggerJson self) h1 b
    ∧ b ≠ swaggerJson self
    ∧ extends h h1 hn ∧ deep_value hn b t.
Proof.
  intros Hs [Hd Hp] Hu.
  destruct (serveExpress_swagger_json proc self prefix req res h l t Hs Hd Hu)
    as (b & h1 & hn & Hrun & He & Hb & Hne).
  rewrite Hp in Hrun, Hb. exists b, h1, hn. rewrite Hs. split_and!; try done.
  exists t. split; [done|].
  eapply deep_value_weaken; [|done]. by eapply extends_subseteq_new.
Qed.

(** C2, as amended: for every adapter whose stored document is an object
    that is not circular, with any name and prefix [P], the request
    [/services.json] is answered, without calling [next], with a list of
    one descriptor: the adapter's name, the url [P/swagger.json], a
    location, and swaggerVersion "3.0.0". *)
Theorem services_json_one_descriptor proc self prefix req res (h : heap) l t :
  swaggerJson self = VRef l →
  deep_value h (VRef l) t →
  url req = "/services.json" →
  ∃ v h1,
    serveExpress proc self prefix req res h
      = Returned (sent v (services_text proc self prefix) res) false h1.
Proof.
  intros Hs Hd Hu. unfold serveExpress. rewrite (guard_ref self l Hs), Hs.
  destruct (deep_copy_spec _ _ _ Hd) as (-> & b & h1 & hn & -> & _).
  rewrite Hu, String.eqb_refl.
  destruct (alloc (service proc self prefix) h1) as [d h2] eqn:Hd2.
  destruct (alloc (OArr [d]) h2) as [v h3] eqn:Hd3.
  exists v, h3.
  apply (res_json_spec _ _ (services_text proc self prefix)).
  apply (deep_value_alloc (OArr [d]) h2 v h3 [_] Hd3).
  repeat constructor.
  apply (deep_value_alloc (service proc self prefix) h1 d h2
           [TStr _; TStr _; TStr _; TStr _] Hd2).
  repeat constructor; apply deep_value_str.
Qed.

(** C3: when the stored value is null or not an object, every request is
    answered with status 500 and the body [{error, message}]; [next] is
    not called, nothing is thrown, and the path plays no part. *)
Theorem invalid_document_gives_500 proc self res (h : heap) :
  is_object (swaggerJson self) = false →
  ∃ e h1, ∀ prefix req,
    serveExpress proc self prefix req res h
      = Returned (sent e error_text (res_status 500 res)) false h1
    ∧ statusCode (sent e error_text (res_status 500 res)) = 500.
Proof.
  intros Hv. destruct (alloc error_body h) as [e h1] eqn:Ha.
  exists e, h1. intros prefix req. split; [|done].
  unfold serveExpress. rewrite guard_not_ref, Ha.
  - apply (res_json_spec _ _ error_text).
    apply (deep_value_alloc error_body h e h1
             [TStr _; TStr _] Ha).
    repeat constructor; apply deep_value_str.
  - intros l Hl. by rewrite Hl in Hv.
Qed.

(** C4, as amended: with a stored object that is not circular, a request
    whose url is neither [/services.json] nor [P/swagger.json] makes the
    handler call [next] and leaves the response as it was. *)
Theorem other_paths_call_next proc self prefix req res (h : heap) l t :
  swaggerJson self = VRef l →
  deep_value h (VRef l) t →
  url req ≠ "/services.json" →
  url req ≠ prefix ++ "/swagger.json" →
  ∃ h1, serveExpress proc self prefix req res h = Returned res true h1.
Proof.
  intros Hs Hd Hu1 Hu2. unfold serveExpress. rewrite (guard_ref self l Hs), Hs.
  destruct (deep_copy_spec _ _ _ Hd) as (-> & b & h1 & hn & -> & _).
  exists h1.
  apply String.eqb_neq in Hu1, Hu2. by rewrite Hu1, Hu2.
Qed.

(** C6: for every stored value, name, prefix and request, the Express
    handler and the Koa handler do the same.  Observed from a fresh
    response and a fresh context, both answer with the same status and the
    same JSON text, or both call [next], or both fail.  Whenever the
    Express handler returns, the Koa handler returns with the same
    continuation flag and the same heap; when [next] was called, the
    response and the context are as they were before the call; when it was
    not, the value given to [res.json] is the value assigned to
    [ctx.body].  Whenever the Koa handler calls [next], so does the
    Express handler. *)
Theorem express_koa_agree proc self prefix req res ctx (h : heap) :
  observe_express (serveExpress proc self prefix req fresh_response h)
    = observe_koa (serveKoa proc self prefix req fresh_context h)
  ∧ (∀ res' h1 nx, serveExpress proc self prefix req res h
                     = Returned res' nx h1 →
       ∃ ctx', serveKoa proc self prefix req ctx h = Returned ctx' nx h1
               ∧ if nx then res' = res ∧ ctx' = ctx
                 else ∃ v, json_arg res' = Some v ∧ body ctx' = Some v)
  ∧ (∀ ctx' h1, serveKoa proc self prefix req ctx h = Returned ctx' true h1 →
       ctx' = ctx
       ∧ serveExpress proc self prefix req res h = Returned res true h1).
Proof.
  unfold serveExpress, serveKoa, res_json.
  destruct (negb _ || negb _).
  - destruct (alloc error_body h) as [e h1]. simpl.
    destruct (JSON_stringify h1 e); split_and!; try done.
    intros res' h2 nx [= <- <- <-]. eauto.
  - destruct (JSON_stringify h (swaggerJson self)) as [text|]; [|done].
    destruct (JSON_parse text h) as [[docs h1]|]; [|done].
    destruct (String.eqb (url req) "/services.json").
    + destruct (alloc _ h1) as [d h2]. destruct (alloc _ h2) as [s h3].
      simpl. destruct (JSON_stringify h3 s); split_and!; try done.
      intros res' h4 nx [= <- <- <-]. eauto.
    + destruct (String.eqb (url req) _).
      * simpl. destruct (JSON_stringify h1 docs); split_and!; try done.
        intros res' h4 nx [= <- <- <-]. eauto.
      * split_and!; [done| |].
        -- intros res' h4 nx [= <- <- <-]. eauto.
        -- by intros ctx' h4 [= <- <-].
Qed.

(** C10: with a stored object that is not circular, the request
    [P/swagger.json] issued twice in a row is answered twice with the
    same JSON text, character for character. *)
Theorem swagger_json_twice_same_text proc self prefix req res (h : heap) l t :
  swaggerJson self = VRef l →
  deep_value h (VRef l) t →
  url req = prefix ++ "/swagger.json" →
  ∃ r1 h1 r2 h2 text1 text2,
    serveExpress proc self prefix req res h = Returned r1 false h1
    ∧ serveExpress proc self prefix req res h1 = Returned r2 false h2
    ∧ payload r1 = Some text1 ∧ payload r2 = Some text2
    ∧ render text1 = render text2.
Proof.
  intros Hs Hd Hu.
  destruct (serveExpress_swagger_json proc self prefix req res h l t Hs Hd Hu)
    as (b1 & h1 & hn1 & Hrun1 & He1 & _).
  assert (deep_value h1 (VRef l) t) as Hd1.
  { eapply deep_value_weaken; [|done]. by eapply extends_subseteq. }
  destruct (serveExpress_swagger_json proc self prefix req res h1 l t Hs Hd1 Hu)
    as (b2 & h2 & hn2 & Hrun2 & _).
  by eexists _, h1, _, h2, (prune t), (prune t).
Qed.
End current_claims.

Section current_witnesses.
Import Current Examples.

Lemma small_heap_serializable : json_serializable small_heap (VRef 0) small_text.
Proof. split; [by exists 1|done]. Qed.

Lemma swagger_json_is_deep_copy_witness :
  ∃ b h1 hn,
    serveExpress proc small_doc "/doc" (get "/doc/swagger.json")
        fresh_response small_heap
      = Returned (sent b small_text fresh_response) false h1
    ∧ deep_equal small_heap (swaggerJson small_doc) h1 b
    ∧ b ≠ swaggerJson small_doc
    ∧ extends small_heap h1 hn ∧ deep_value hn b small_text.
Proof.
  apply (swagger_json_is_deep_copy proc small_doc "/doc"
           (get "/doc/swagger.json") fresh_response small_heap 0 small_text).
  - reflexivity.
  - split; [exists 1; vm_compute; reflexivity|reflexivity].
  - reflexivity.
Defined.

Lemma services_json_one_descriptor_witness :
  ∃ v h1,
    serveExpress proc small_doc "/doc" (get "/services.json")
        fresh_response small_heap
      = Returned (sent v (services_text proc small_doc "/doc") fresh_response)
          false h1.
Proof.
  apply (services_json_one_descriptor proc small_doc "/doc"
           (get "/services.json") fresh_response small_heap 0 small_text).
  - reflexivity.
  - exists 1. vm_compute. reflexivity.
  - reflexivity.
Defined.

(** C2 as stated fails for [new Knife4jDoc(null)]: the request
    [/services.json] is answered with status 500 and the error body, not
    with a list of one descriptor. *)
Lemma services_json_null_document :
  observe_express
    (serveExpress proc null_doc "" (get "/services.json") fresh_response ∅)
    = Handled 500 error_text
  ∧ ¬ ∃ v h1,
      serveExpress proc null_doc "" (get "/services.json") fresh_response ∅
        = Returned (sent v (services_text proc null_doc "") fresh_response)
            false h1.
Proof.
  split; [vm_compute; reflexivity|].
  intros (v & h1 & H). vm_compute in H. discriminate H.
Qed.

Lemma invalid_document_gives_500_witness :
  ∃ e h1, ∀ prefix req,
    serveExpress proc null_doc prefix req fresh_response ∅
      = Returned (sent e error_text (res_status 500 fresh_response)) false h1
    ∧ statusCode (sent e error_text (res_status 500 fresh_response)) = 500.
Proof.
  apply (invalid_document_gives_500 proc null_doc fresh_response ∅).
  reflexivity.
Defined.

Lemma other_paths_call_next_witness :
  ∃ h1, serveExpress proc small_doc "/doc" (get "/index.html")
          fresh_response small_heap = Returned fresh_response true h1.
Proof.
  apply (other_paths_call_next proc small_doc "/doc" (get "/index.html")
           fresh_response small_heap 0 small_text).
  - reflexivity.
  - exists 1. vm_compute. reflexivity.
  - discriminate.
  - discriminate.
Defined.

Lemma swagger_json_twice_same_text_witness :
  ∃ r1 h1 r2 h2 text1 text2,
    serveExpress proc small_doc "/doc" (get "/doc/swagger.json")
        fresh_response small_heap = Returned r1 false h1
    ∧ serveExpress proc small_doc "/doc" (get "/doc/swagger.json")
        fresh_response h1 = Returned r2 false h2
    ∧ payload r1 = Some text1 ∧ payload r2 = Some text2
    ∧ render text1 = render text2.
Proof.
  apply (swagger_json_twice_same_text proc small_doc "/doc"
           (get "/doc/swagger.json") fresh_response small_heap 0 small_text).
  - reflexivity.
  - exists 1. vm_compute. reflexivity.
  - reflexivity.
Defined.
(** C4 as stated fails for an object that holds itself: it passes the
    guard, the copy made before the routes are tested throws, and a request
    for a url of no route is not passed on. *)
Lemma other_paths_circular_document :
  swaggerJson small_doc = VRef 0
  ∧ circular_heap !! 0 = Some (OObj [("self", VRef 0)])
  ∧ truthy (swaggerJson small_doc) && typeof_object (swaggerJson small_doc)
    = true
  ∧ url (get "/index.html") ≠ "/services.json"
  ∧ url (get "/index.html") ≠ "/doc" ++ "/swagger.json"
  ∧ serveExpress proc small_doc "/doc" (get "/index.html") fresh_response
      circular_heap = Threw
  ∧ ¬ ∃ h1, serveExpress proc small_doc "/doc" (get "/index.html")
              fresh_response circular_heap
            = Returned fresh_response true h1.
Proof.
  split_and!; try done.
  intros (h1 & H). vm_compute in H. discriminate H.
Qed.
End current_witnesses.

(** * The legacy protocol: claims *)

Section legacy_claims.
Import Legacy.

(** C8, as amended: for every stored document that is an object of the
    data model (its [paths], when present, maps paths to mappings from
    methods to operations whose [tags] are lists of strings), the request
    [/v3/api-docs/swagger-config] is answered with the whole document and
    a member [urls]: the group named "全部" with url
    [prefix/api-docs/全部], then one group for each tag string of an
    operation under [paths], each tag once, with url
    [prefix/api-docs/tag], swaggerVersion "3.0.0" and servicePath "".
    The request [/swagger-resources] is answered with that list alone. *)
Theorem legacy_group_list self prefix res (h : heap) l fs :
  swaggerJson self = VRef l →
  deep_value h (VRef l) (TObj fs) →
  conforming (TObj fs) = true →
  ∃ tags,
    groups_text prefix (TObj fs)
      = TArr (group_text prefix all :: map (group_text prefix) tags)
    ∧ NoDup tags
    ∧ (∀ tag, tag ∈ tags ↔
         ∃ o, o ∈ operations_of (field (TObj fs) "paths")
              ∧ tag ∈ operation_tags (snd o))
    ∧ (∀ req, url req = "/v3/api-docs/swagger-config" →
         ∃ text h1,
           serveExpress self prefix req res h
             = Returned
                 (sent (VRef l) text
                    (res_setHeader "Content-Type" "application/json" res))
                 false h1
           ∧ text = prune (with_field (TObj fs) "urls"
                             (groups_text prefix (TObj fs)))
           ∧ field text "urls" = groups_text prefix (TObj fs))
    ∧ (∀ req, url req = "/swagger-resources" →
         ∃ groups h1,
           serveExpress self prefix req res h
             = Returned (sent groups (groups_text prefix (TObj fs)) res)
                 false h1).
Proof.
  intros Hs Hd Hok. exists (distinct (all_tags (TObj fs))).
  destruct (distinct_spec (all_tags (TObj fs))) as [Hnd Hin].
  split; [done|]. split; [done|]. split.
  { intros tag. by rewrite Hin, all_tags_spec. }
  destruct (make_groups_spec h h prefix (VRef l) fs (reflexivity h) Hd Hok)
    as (groups & h1 & hn & Hmk & He & Hg).
  split; intros req Hu; unfold serveExpress; rewrite Hs, legacy_guard_ref, Hu;
    simpl String.eqb; cbv iota; rewrite Hmk.
  - destruct (set_prop_document h h1 hn l fs "urls" groups
                (groups_text prefix (TObj fs)) Hd He)
      as (ps & h3 & Hl & -> & Hh3 & Hd3).
    { destruct He as [_ Hdisj]. by apply deep_value_new_part. }
    eexists _, h3. split; [by apply res_json_spec|]. split; [done|].
    rewrite field_prune_assoc_set.
    + apply prune_groups_text.
    + by rewrite prune_groups_text.
  - exists groups, h1. rewrite <-(prune_groups_text prefix (TObj fs)).
    apply res_json_spec.
    eapply deep_value_weaken; [|done]. by eapply extends_subseteq_new.
Qed.
(** C7: for a document whose [paths] hold an operation tagged X under
    [/a] and an operation tagged Y under [/b], the request under
    [/api-docs/] with groupName X is answered with a document whose
    [paths] has the member [/a], with its operation, and no member [/b];
    the request with groupName "全部" is answered with the document, both
    [/a] and [/b] in its [paths]. *)
Theorem legacy_filter_scenario self prefix res (h : heap) l fs
    ma opa mb opb reqX reqAll :
  swaggerJson self = VRef l →
  deep_value h (VRef l) (TObj fs) →
  conforming (TObj fs) = true →
  field (TObj fs) "paths"
    = TObj [("/a", TObj [(ma, opa)]); ("/b", TObj [(mb, opb)])] →
  operation_tags opa = ["X"] →
  operation_tags opb = ["Y"] →
  String.prefix "/api-docs/" (url reqX) = true → groupName_of reqX = "X" →
  String.prefix "/api-docs/" (url reqAll) = true → groupName_of reqAll = all →
  (∃ text h1,
     serveExpress self prefix reqX res h
       = Returned (sent (VRef l) text res) false h1
     ∧ keys (field text "paths") = ["/a"]
     ∧ field (field text "paths") "/a" = prune (TObj [(ma, opa)]))
  ∧ (∃ text h1,
       serveExpress self prefix reqAll res h
         = Returned (sent (VRef l) text res) false h1
       ∧ text = prune (TObj fs)
       ∧ keys (field text "paths") = ["/a"; "/b"]).
Proof.
  intros Hs Hd Hok Hpaths Ha Hb HuX HgX HuA HgA. split.
  - destruct (serveExpress_tag self prefix reqX h l fs Hs Hd HuX res Hok)
      as (ps & g & h1 & Hrun & _); [by rewrite HgX|].
    rewrite Hpaths, HgX in Hrun.
    eexists _, h1. split; [exact Hrun|].
    rewrite field_prune_with_field by done.
    unfold tagged_paths, tagged_entries, tagged_methods, carries.
    cbn [snd fst omap list_omap List.filter]. rewrite Ha, Hb. simpl.
    by split.
  - destruct (serveExpress_all self prefix reqAll h l fs Hs Hd HuA res HgA)
      as (h1 & Hrun & _).
    eexists _, h1. split; [exact Hrun|]. split; [done|].
    unfold field in Hpaths.
    destruct (assoc_get fs "paths") as [t|] eqn:Hget; [|done].
    simpl in Hpaths. subst t.
    by rewrite (field_prune _ _ _ Hget).
Qed.

(** C9, as amended: in the answer to a per-tag request (groupName [g]
    other than "全部"), [paths] has a member for a path exactly when an
    operation under that path carries [g]; a path none of whose operations
    carries [g] has no member, and no member is an empty mapping. *)
Theorem legacy_filter_omits_untagged self prefix req res (h : heap) l fs :
  swaggerJson self = VRef l →
  deep_value h (VRef l) (TObj fs) →
  conforming (TObj fs) = true →
  String.prefix "/api-docs/" (url req) = true →
  groupName_of req ≠ all →
  ∃ text h1 kept,
    serveExpress self prefix req res h
      = Returned (sent (VRef l) text res) false h1
    ∧ text = prune (with_field (TObj fs) "paths" (entries_text kept))
    ∧ keys (field text "paths") = kept.*1
    ∧ (∀ p, p ∈ kept.*1 ↔
         ∃ m t, (p, m, t) ∈ operations_of (field (TObj fs) "paths")
                ∧ groupName_of req ∈ operation_tags t)
    ∧ (∀ p ms, (p, ms) ∈ kept → ms ≠ []).
Proof.
  intros Hs Hd Hok Hu Hg.
  destruct (serveExpress_tag self prefix req h l fs Hs Hd Hu res Hok Hg)
    as (ps & g & h1 & Hrun & _).
  eexists _, h1, (tagged_entries (groupName_of req) (field (TObj fs) "paths")).
  split; [exact Hrun|]. split; [done|]. split; [|split].
  - rewrite field_prune_with_field by done.
    apply keys_prune_entries_text.
  - intros p. by apply tagged_entries_spec.
  - intros p ms. apply tagged_entries_nonempty.
Qed.
End legacy_claims.

Section legacy_witnesses.
Import Legacy Examples.

Lemma ab_doc_deep_value : deep_value ab_heap (VRef 7) ab_text.
Proof. exists 6. vm_compute. reflexivity. Qed.

Lemma legacy_group_list_witness :
  ∃ tags,
    groups_text "/doc" ab_text
      = TArr (group_text "/doc" all :: map (group_text "/doc") tags)
    ∧ NoDup tags
    ∧ (∀ tag, tag ∈ tags ↔
         ∃ o, o ∈ operations_of (field ab_text "paths")
              ∧ tag ∈ operation_tags (snd o))
    ∧ (∀ req, url req = "/v3/api-docs/swagger-config" →
         ∃ text h1,
           serveExpress ab_doc "/doc" req fresh_response ab_heap
             = Returned
                 (sent (VRef 7) text
                    (res_setHeader "Content-Type" "application/json"
                       fresh_response))
                 false h1
           ∧ text = prune (with_field ab_text "urls"
                             (groups_text "/doc" ab_text))
           ∧ field text "urls" = groups_text "/doc" ab_text)
    ∧ (∀ req, url req = "/swagger-resources" →
         ∃ groups h1,
           serveExpress ab_doc "/doc" req fresh_response ab_heap
             = Returned (sent groups (groups_text "/doc" ab_text)
                           fresh_response)
                 false h1).
Proof.
  apply (legacy_group_list ab_doc "/doc" fresh_response ab_heap 7).
  - vm_compute. reflexivity.
  - exists 6. vm_compute. reflexivity.
  - vm_compute. reflexivity.
Defined.

(** C8 as stated fails for [new Knife4jDoc(null)]: the request
    [/v3/api-docs/swagger-config] is answered with status 500 and the
    error body, not with a document that carries [urls]. *)
Lemma legacy_group_list_null_document :
  observe_express
    (serveExpress legacy_null_doc "" (get "/v3/api-docs/swagger-config")
       fresh_response ∅)
    = Handled 500 Current.error_text
  ∧ field Current.error_text "urls" = TUndef
  ∧ observe_express
      (serveExpress legacy_null_doc "" (get "/swagger-resources")
         fresh_response ∅)
      = Handled 500 Current.error_text.
Proof. split_and!; vm_compute; reflexivity. Qed.

Lemma legacy_filter_scenario_witness :
  (∃ text h1,
     serveExpress ab_doc "" get_X fresh_response ab_heap
       = Returned (sent (VRef 7) text fresh_response) false h1
     ∧ keys (field text "paths") = ["/a"]
     ∧ field (field text "paths") "/a"
       = prune (TObj [("get", operation_text "X")]))
  ∧ (∃ text h1,
       serveExpress ab_doc "" get_all fresh_response ab_heap
         = Returned (sent (VRef 7) text fresh_response) false h1
       ∧ text = prune ab_text
       ∧ keys (field text "paths") = ["/a"; "/b"]).
Proof.
  apply (legacy_filter_scenario ab_doc "" fresh_response ab_heap 7 _
           "get" (operation_text "X") "get" (operation_text "Y")
           get_X get_all).
  - vm_compute. reflexivity.
  - exists 6. vm_compute. reflexivity.
  - vm_compute. reflexivity.
  - vm_compute. reflexivity.
  - vm_compute. reflexivity.
  - vm_compute. reflexivity.
  - vm_compute. reflexivity.
  - vm_compute. reflexivity.
  - vm_compute. reflexivity.
  - vm_compute. reflexivity.
Defined.

Lemma legacy_filter_omits_untagged_witness :
  ∃ text h1 kept,
    serveExpress ab_doc "" get_X fresh_response ab_heap
      = Returned (sent (VRef 7) text fresh_response) false h1
    ∧ text = prune (with_field ab_text "paths" (entries_text kept))
    ∧ keys (field text "paths") = kept.*1
    ∧ (∀ p, p ∈ kept.*1 ↔
         ∃ m t, (p, m, t) ∈ operations_of (field ab_text "paths")
                ∧ groupName_of get_X ∈ operation_tags t)
    ∧ (∀ p ms, (p, ms) ∈ kept → ms ≠ []).
Proof.
  apply (legacy_filter_omits_untagged ab_doc "" get_X fresh_response
           ab_heap 7).
  - vm_compute. reflexivity.
  - exists 6. vm_compute. reflexivity.
  - vm_compute. reflexivity.
  - vm_compute. reflexivity.
  - vm_compute. discriminate.
Defined.

(** C9 as stated fails on the document of the scenario: no operation
    under [/b] carries X, and the answer to the request for X has no
    member [/b] in its [paths], where the claim has an empty one. *)
Lemma legacy_filter_no_empty_entry :
  ∃ text,
    observe_express (serveExpress ab_doc "" get_X fresh_response ab_heap)
      = Handled 200 text
    ∧ "/b" ∈ keys (field ab_text "paths")
    ∧ "/b" ∉ keys (field text "paths")
    ∧ field (field text "paths") "/b" ≠ TObj [].
Proof.
  eexists. split; [vm_compute; reflexivity|]. split_and!.
  - vm_compute. apply elem_of_cons. right. apply elem_of_cons. by left.
  - vm_compute. intros [H|H]%elem_of_cons; [done|by apply elem_of_nil in H].
  - vm_compute. discriminate.
Qed.

(** C5 fails on the legacy handlers: after the request for X on the
    document of the scenario, the stored document has lost [/b]; the
    request for all that follows is answered without [/b], by the Express
    handler and by the Koa handler alike. *)
Theorem legacy_filter_overwrites_stored_document :
  let h1 := heap_after (serveExpress ab_doc "" get_X fresh_response ab_heap) in
  let k1 := heap_after (serveKoa ab_doc "" get_X fresh_context ab_heap) in
  JSON_stringify ab_heap (swaggerJson ab_doc) = Some ab_text
  ∧ JSON_stringify h1 (swaggerJson ab_doc)
    = Some (with_field ab_text "paths"
              (TObj [("/a", TObj [("get", operation_text "X")])]))
  ∧ observe_express (serveExpress ab_doc "" get_all fresh_response h1)
    = Handled 200
        (with_field ab_text "paths"
           (TObj [("/a", TObj [("get", operation_text "X")])]))
  ∧ observe_koa (serveKoa ab_doc "" get_all fresh_context k1)
    = Handled 200
        (with_field ab_text "paths"
           (TObj [("/a", TObj [("get", operation_text "X")])])).
Proof. cbv zeta. split_and!; vm_compute; reflexivity. Qed.
End legacy_witnesses.

(** * Further properties of the current class *)

Lemma alloc_subseteq o (h : heap) v h' : alloc o h = (v, h') → h ⊆ h'.
Proof. intros (l & _ & Hl & ->)%alloc_spec. by apply insert_subseteq. Qed.

Lemma JSON_parse_extends t (h : heap) v h' :
  JSON_parse t h = Some (v, h') → ∃ hn, extends h h' hn ∧ deep_value hn v t.
Proof.
  unfold JSON_parse. destruct (is_undef t); [done|].
  intros [= Hb]. by apply build_spec.
Qed.

(** A member of the object that is the object itself leaves it without a
    deep value. *)
Lemma self_reference_no_deep_value (h : heap) l o t :
  h !! l = Some o → VRef l ∈ children o → ¬ deep_value h (VRef l) t.
Proof.
  intros Hl Hin Hd.
  destruct (deep_value_children_delete _ _ _ _ Hl Hd) as (ts & _ & Hc).
  pose proof (Forall2_exists_l _ _ _ Hc) as Hall.
  rewrite Forall_forall in Hall. destruct (Hall _ Hin) as (t' & Ht').
  apply deep_value_ref in Ht' as (o' & _ & Hl' & _).
  by rewrite lookup_delete_eq in Hl'.
Qed.

Lemma JSON_stringify_circular (h : heap) l o :
  h !! l = Some o → VRef l ∈ children o → JSON_stringify h (VRef l) = None.
Proof.
  intros Hl Hin. destruct (JSON_stringify h (VRef l)) as [j|] eqn:Hj; [|done].
  apply JSON_stringify_inv in Hj as (t & Hd & _).
  by destruct (self_reference_no_deep_value _ _ _ _ Hl Hin Hd).
Qed.

Section current_extras.
Import Current.

(** The discovery route, for a stored object that is not circular. *)
Lemma serveExpress_services_json proc self prefix req res (h : heap) l t :
  swaggerJson self = VRef l →
  deep_value h (VRef l) t →
  url req = "/services.json" →
  ∃ v h1,
    serveExpress proc self prefix req res h
      = Returned (sent v (services_text proc self prefix) res) false h1
    ∧ h ⊆ h1.
Proof.
  intros Hs Hd Hu. unfold serveExpress. rewrite (guard_ref self l Hs), Hs.
  destruct (deep_copy_spec _ _ _ Hd) as (-> & b & h1 & hn & -> & He & _).
  rewrite Hu, String.eqb_refl.
  destruct (alloc (service proc self prefix) h1) as [d h2] eqn:Hd2.
  destruct (alloc (OArr [d]) h2) as [v h3] eqn:Hd3.
  exists v, h3. split.
  - apply (res_json_spec _ _ (services_text proc self prefix)).
    apply (deep_value_alloc (OArr [d]) h2 v h3 [_] Hd3).
    repeat constructor.
    apply (deep_value_alloc (service proc self prefix) h1 d h2
             [TStr _; TStr _; TStr _; TStr _] Hd2).
    repeat constructor; apply deep_value_str.
  - etrans; [by eapply extends_subseteq|].
    etrans; by eapply alloc_subseteq.
Qed.

(** X1: constructed without arguments, the adapter stores a new empty
    object and the name "API接口文档": [/services.json] names the service
    so, and [/swagger.json] (empty prefix) is answered with [{}]. *)
Theorem default_construction proc res (h : heap) q :
  let '(self, h1) := new VUndefined None h in
  name self = "API接口文档"
  ∧ h ⊆ h1
  ∧ deep_value h1 (swaggerJson self) (TObj [])
  ∧ (∃ b h2, serveExpress proc self "" {| url := "/swagger.json"; query := q |}
               res h1
             = Returned (sent b (TObj []) res) false h2)
  ∧ (∃ v h2, serveExpress proc self "" {| url := "/services.json"; query := q |}
               res h1
             = Returned
                 (sent v
                    (TArr [TObj [("name", TStr "API接口文档");
                                 ("url", TStr "/swagger.json");
                                 ("location", TStr (getSwagger proc));
                                 ("swaggerVersion", TStr "3.0.0")]]) res)
                 false h2).
Proof.
  unfold new. destruct (alloc (OObj []) h) as [o h1] eqn:Hal.
  pose proof (alloc_subseteq _ _ _ _ Hal) as Hsub.
  assert (deep_value h1 o (rebuild (OObj []) [])) as Hd.
  { apply (deep_value_alloc (OObj []) h o h1 [] Hal). constructor. }
  destruct (alloc_spec _ _ _ _ Hal) as (l & -> & _ & _). simpl in Hd.
  split; [done|]. split; [done|]. split; [done|]. split.
  - destruct (serveExpress_swagger_json proc
                {| swaggerJson := VRef l; name := "API接口文档" |} ""
                {| url := "/swagger.json"; query := q |} res h1 l (TObj []))
      as (b & h2 & hn & Hrun & _); try done.
    by exists b, h2.
  - destruct (serveExpress_services_json proc
                {| swaggerJson := VRef l; name := "API接口文档" |} ""
                {| url := "/services.json"; query := q |} res h1 l (TObj []))
      as (v & h2 & Hrun & _); try done.
    by exists v, h2.
Qed.
(** X2: whatever is stored and whatever is requested, the handlers of the
    current class only allocate: every object that was on the heap before
    the call is there, unchanged, after it. *)
Theorem current_handlers_only_allocate proc self prefix req res ctx (h : heap) :
  match serveExpress proc self prefix req res h with
  | Returned _ _ h1 => h ⊆ h1
  | Threw => True
  end
  ∧ match serveKoa proc self prefix req ctx h with
    | Returned _ _ h1 => h ⊆ h1
    | Threw => True
    end.
Proof.
  unfold serveExpress, serveKoa, res_json.
  destruct (negb _ || negb _).
  - destruct (alloc error_body h) as [e h1] eqn:Ha.
    pose proof (alloc_subseteq _ _ _ _ Ha).
    by destruct (JSON_stringify h1 e).
  - destruct (JSON_stringify h (swaggerJson self)) as [text|]; [|done].
    destruct (JSON_parse text h) as [[docs h1]|] eqn:Hp; [|done].
    destruct (JSON_parse_extends _ _ _ _ Hp) as (hn & He & _).
    pose proof (extends_subseteq _ _ _ He) as Hsub.
    destruct (String.eqb (url req) "/services.json").
    + destruct (alloc _ h1) as [d h2] eqn:H2.
      destruct (alloc _ h2) as [s h3] eqn:H3.
      assert (h ⊆ h3).
      { etrans; [done|]. etrans; by eapply alloc_subseteq. }
      by destruct (JSON_stringify h3 s).
    + destruct (String.eqb (url req) _); [|done].
      by destruct (JSON_stringify h1 docs).
Qed.

(** X3: when a member of the stored object is the stored object itself,
    every request makes both handlers throw: the copy is made before a
    route is tested, so this holds for the urls of other routes as well. *)
Theorem self_referencing_document_throws proc self prefix req res ctx
    (h : heap) l o :
  swaggerJson self = VRef l →
  h !! l = Some o →
  VRef l ∈ children o →
  serveExpress proc self prefix req res h = Threw
  ∧ serveKoa proc self prefix req ctx h = Threw.
Proof.
  intros Hs Hl Hin. unfold serveExpress, serveKoa.
  rewrite (guard_ref self l Hs), Hs.
  by rewrite (JSON_stringify_circular _ _ _ Hl Hin).
Qed.

(** X4: the Koa handler answers [P/swagger.json] by assigning to
    [ctx.body] a copy of the stored object, made of new objects only; the
    status of a fresh context becomes 200 and [next] is not called. *)
Theorem koa_swagger_json_is_copy proc self prefix req ctx (h : heap) l t :
  swaggerJson self = VRef l →
  deep_value h (VRef l) t →
  url req = (prefix ++ "/swagger.json")%string →
  ∃ b h1 hn,
    serveKoa proc self prefix req ctx h
      = Returned (ctx_set_body b ctx) false h1
    ∧ extends h h1 hn ∧ deep_value hn b (prune t) ∧ b ≠ swaggerJson self
    ∧ observe_koa (serveKoa proc self prefix req fresh_context h)
      = Handled 200 (prune t).
Proof.
  intros Hs Hd Hu. unfold serveKoa. rewrite (guard_ref self l Hs), Hs.
  destruct (deep_copy_spec _ _ _ Hd) as (-> & b & h1 & hn & -> & He & Hb & Hne).
  rewrite Hu.
  destruct (String.eqb_spec (prefix ++ "/swagger.json") "/services.json")
    as [Heq|_]; [by apply swagger_json_not_services in Heq|].
  rewrite String.eqb_refl. exists b, h1, hn. split_and!; try done.
  simpl. rewrite (JSON_stringify_Some _ _ (prune t)); [by rewrite prune_idemp|].
  eapply deep_value_weaken; [|done]. by eapply extends_subseteq_new.
Qed.

(** X5: the adapter keeps the object it was given, not a copy of it: once
    its owner has assigned to a member of the stored object, the next
    request for [P/swagger.json] is answered with the new content. *)
Theorem serves_the_live_document proc self prefix req res (h : heap) l fs
    k x tx :
  swaggerJson self = VRef l →
  deep_value h (VRef l) (TObj fs) →
  deep_value (delete l h) x tx →
  url req = (prefix ++ "/swagger.json")%string →
  ∃ h' b h1,
    set_prop h (VRef l) k x = Some h'
    ∧ serveExpress proc self prefix req res h'
      = Returned (sent b (prune (TObj (assoc_set fs k tx))) res) false h1.
Proof.
  intros Hs Hd Hx Hu.
  destruct (set_prop_document h h ∅ l fs k x tx Hd (extends_refl h))
    as (ps & h' & Hl & Hset & _ & Hd').
  { by rewrite (right_id ∅ (∪)). }
  destruct (serveExpress_swagger_json proc self prefix req res h' l _ Hs Hd' Hu)
    as (b & h1 & hn & Hrun & _).
  by exists h', b, h1.
Qed.

(** X6: the body of an answer is apart from the stored document: an
    assignment to a member of the body leaves the deep value of the stored
    document as it was, and the next request is answered as the first. *)
Theorem answer_is_apart_from_stored_document proc self prefix req res
    (h : heap) l t :
  swaggerJson self = VRef l →
  deep_value h (VRef l) t →
  url req = (prefix ++ "/swagger.json")%string →
  ∃ b h1,
    serveExpress proc self prefix req res h
      = Returned (sent b (prune t) res) false h1
    ∧ ∀ k x h2, set_prop h1 b k x = Some h2 →
        deep_value h2 (VRef l) t
        ∧ ∃ b' h3, serveExpress proc self prefix req res h2
                   = Returned (sent b' (prune t) res) false h3.
Proof.
  intros Hs Hd Hu.
  destruct (serveExpress_swagger_json proc self prefix req res h l t Hs Hd Hu)
    as (b & h1 & hn & Hrun & He & Hb & Hne).
  exists b, h1. split; [done|]. intros k x h2 Hset.
  assert (h ⊆ h2) as Hsub.
  { pose proof (extends_subseteq _ _ _ He) as Hsub1.
    assert (∃ lb ob, b = VRef lb ∧ hn !! lb = Some ob) as (lb & ob & -> & Hlb).
    { destruct (proj1 (deep_value_ref _ _ _) Hd) as (o & ts & _ & _ & ->).
      destruct o as [ps|vs]; simpl in Hb.
      - apply deep_value_TObj_inv in Hb as (lb & ? & -> & ? & _). eauto.
      - apply deep_value_TArr_inv in Hb as (lb & ? & -> & ? & _). eauto. }
    pose proof (lookup_weaken _ _ _ _ Hlb (extends_subseteq_new _ _ _ He))
      as Hlb1.
    assert (h !! lb = None) as Hhlb.
    { destruct He as [_ Hdisj]. by eapply map_disjoint_Some_r. }
    simpl in Hset. rewrite Hlb1 in Hset.
    destruct ob; injection Hset as <-; [|done].
    by apply insert_subseteq_r. }
  assert (deep_value h2 (VRef l) t) as Hd2 by (by eapply deep_value_weaken).
  split; [done|].
  destruct (serveExpress_swagger_json proc self prefix req res h2 l t Hs Hd2 Hu)
    as (b' & h3 & hn' & Hrun' & _).
  by exists b', h3.
Qed.
End current_extras.
(** * Further properties of the legacy class *)

(** ** Filtering twice *)

Lemma assoc_get_set_ne {A} (ps : list (string * A)) k k' x :
  k ≠ k' → assoc_get (assoc_set ps k x) k' = assoc_get ps k'.
Proof.
  intros Hne. induction ps as [|[k0 y] ps IH]; simpl.
  - by apply String.eqb_neq in Hne as ->.
  - destruct (String.eqb_spec k0 k) as [->|Hk]; simpl.
    + by apply String.eqb_neq in Hne as ->.
    + by rewrite IH.
Qed.

Lemma assoc_set_set {A} (ps : list (string * A)) k x y :
  assoc_set (assoc_set ps k x) k y = assoc_set ps k y.
Proof.
  induction ps as [|[k0 z] ps IH]; simpl.
  - by rewrite String.eqb_refl.
  - destruct (String.eqb k0 k) eqn:Hk; simpl.
    + by rewrite String.eqb_refl.
    + by rewrite Hk, IH.
Qed.

Lemma filter_map_comm {A B} (f : A → B) (P : B → bool) l :
  List.filter P (map f l) = map f (List.filter (λ x, P (f x)) l).
Proof.
  induction l as [|x l IH]; simpl; [done|].
  destruct (P (f x)); simpl; by rewrite IH.
Qed.

Lemma filter_filter_same {A} (P : A → bool) l :
  List.filter P (List.filter P l) = List.filter P l.
Proof.
  induction l as [|x l IH]; simpl; [done|].
  destruct (P x) eqn:Hx; simpl; [|done]. by rewrite Hx, IH.
Qed.

Lemma filter_keys_sublist {A} (P : string * A → bool) l :
  (List.filter P l).*1 `sublist_of` l.*1.
Proof.
  induction l as [|x l IH]; simpl; [done|].
  destruct (P x); simpl; by constructor.
Qed.

Lemma mapping_ok_sublist (fs gs : list (string * tree)) :
  gs.*1 `sublist_of` fs.*1 → mapping_ok fs = true → mapping_ok gs = true.
Proof.
  intros Hsub [Hnd Hno]%mapping_ok_spec. unfold mapping_ok.
  apply andb_true_intro. split; apply bool_decide_eq_true.
  - by eapply sublist_NoDup.
  - intros Hin. apply Hno. by eapply elem_of_sublist.
Qed.

Lemma forallb_filter {A} (P Q : A → bool) l :
  forallb Q l = true → forallb Q (List.filter P l) = true.
Proof.
  induction l as [|x l IH]; simpl; [done|].
  intros [Hx Hl]%andb_prop. destruct (P x); simpl; [|by apply IH].
  by rewrite Hx, IH.
Qed.

(** The operations of a filtered [paths] are the operations that carry
    the tag, in their order. *)
Lemma operations_of_tagged_paths g p :
  operations_of (tagged_paths g p)
  = List.filter (λ o, bool_decide (g ∈ operation_tags (snd o)))
      (operations_of p).
Proof.
  destruct p as [| | | | | |ps]; try done.
  unfold tagged_paths, tagged_entries, entries_text. simpl.
  induction ps as [|[k item] ps IH]; [done|].
  simpl. rewrite List.filter_app, <-IH. clear IH.
  destruct item as [| | | | | |ms]; try done. simpl.
  rewrite (filter_map_comm (λ m : string * tree, (k, m.1, m.2))). simpl.
  change (λ x : string * tree, bool_decide (g ∈ operation_tags x.2))
    with (carries g).
  by destruct (List.filter (carries g) ms).
Qed.

Lemma tagged_entries_keys_sublist g ps :
  (tagged_entries g (TObj ps)).*1 `sublist_of` ps.*1.
Proof.
  simpl. induction ps as [|[k item] ps IH]; simpl; [done|].
  destruct (tagged_methods g item); simpl; by constructor.
Qed.

(** A filtered [paths] is a mapping of the data model again. *)
Lemma paths_ok_tagged_paths g p :
  paths_ok p = true → paths_ok (tagged_paths g p) = true.
Proof.
  destruct p as [| | | | | |ps]; try done.
  unfold tagged_paths, entries_text. intros [Hm Hall]%andb_prop.
  cbn [paths_ok]. apply andb_true_intro. split.
  - apply (mapping_ok_sublist ps); [|done].
    rewrite <-list_fmap_compose.
    apply (tagged_entries_keys_sublist g ps).
  - clear Hm. simpl. induction ps as [|[k item] ps IH]; [done|].
    simpl in Hall. apply andb_prop in Hall as [Hitem Hall]. simpl.
    destruct (tagged_methods g item) as [|m ms'] eqn:Hms; [by apply IH|].
    simpl. apply andb_true_intro. split; [|exact (IH Hall)].
    destruct item as [| | | | | |ms]; try done. simpl in Hms, Hitem.
    apply andb_prop in Hitem as [Hmok Hops].
    change (mapping_ok (m :: ms')
            && forallb (λ m0 : string * tree, operation_ok m0.2) (m :: ms')
            = true).
    rewrite <-Hms. apply andb_true_intro. split.
    + apply (mapping_ok_sublist ms); [apply filter_keys_sublist|done].
    + by apply forallb_filter.
Qed.

(** Filtering by the same tag again changes nothing. *)
Lemma tagged_paths_idemp g p :
  tagged_paths g (tagged_paths g p) = tagged_paths g p.
Proof.
  unfold tagged_paths at 1 3. f_equal.
  destruct p as [| | | | | |ps]; try done.
  unfold tagged_paths, entries_text. simpl.
  induction ps as [|[k item] ps IH]; [done|]. simpl.
  destruct (tagged_methods g item) as [|m ms'] eqn:Hms; [exact IH|].
  assert (List.filter (carries g) (m :: ms') = m :: ms') as Hf.
  { destruct item as [| | | | | |ms]; try done. simpl in Hms.
    by rewrite <-Hms, filter_filter_same. }
  simpl in Hf |- *. rewrite Hf. f_equal. exact IH.
Qed.

Lemma filter_filter_and {A} (P Q : A → bool) l :
  List.filter Q (List.filter P l) = List.filter (λ x, P x && Q x) l.
Proof.
  induction l as [|x l IH]; simpl; [done|].
  destruct (P x); simpl; [|done]. destruct (Q x); by rewrite IH.
Qed.

Lemma with_field_obj fs k t :
  with_field (TObj fs) k t = TObj (assoc_set fs k t).
Proof. done. Qed.

Lemma field_assoc_set fs k t : field (TObj (assoc_set fs k t)) k = t.
Proof. simpl. by rewrite assoc_get_set. Qed.

Lemma field_assoc_set_ne fs k k' t :
  k ≠ k' → field (TObj (assoc_set fs k t)) k' = field (TObj fs) k'.
Proof. intros Hne. simpl. by rewrite assoc_get_set_ne. Qed.

Section legacy_extras.
Import Legacy.

Lemma legacy_guard_not_ref v : is_object v = false → guard v = true.
Proof.
  destruct v; try done; intros _; unfold guard; simpl; apply orb_true_r.
Qed.

(** What the Koa handler shows to a client is what the Express handler
    shows. *)
Lemma legacy_observe_koa self prefix req (h : heap) :
  observe_koa (serveKoa self prefix req fresh_context h)
  = observe_express (serveExpress self prefix req fresh_response h).
Proof.
  unfold serveExpress, serveKoa, res_json.
  destruct (guard (swaggerJson self)).
  { destruct (alloc error_body h) as [e h1]. simpl.
    by destruct (JSON_stringify h1 e). }
  destruct (String.eqb (url req) "/v3/api-docs/swagger-config").
  { destruct (make_groups prefix (swaggerJson self) h) as [[groups h1]|];
      [|done].
    destruct (set_prop h1 (swaggerJson self) "urls" groups) as [h2|]; [|done].
    simpl. by destruct (JSON_stringify h2 (swaggerJson self)). }
  destruct (String.eqb (url req) "/swagger-resources").
  { destruct (make_groups prefix (swaggerJson self) h) as [[groups h1]|];
      [|done].
    simpl. by destruct (JSON_stringify h1 groups). }
  destruct (String.prefix "/api-docs/" (url req)); [|done].
  destruct (get_prop h (swaggerJson self) "paths") as [paths|]; [|done].
  destruct (alloc (OObj []) h) as [groupPaths h1].
  destruct (String.eqb (groupName_of req) all).
  { simpl. by destruct (JSON_stringify h1 (swaggerJson self)). }
  destruct (filter_paths groupPaths (groupName_of req) paths h1) as [h2|];
    [|done].
  destruct (set_prop h2 (swaggerJson self) "paths" groupPaths) as [h3|];
    [|done].
  simpl. by destruct (JSON_stringify h3 (swaggerJson self)).
Qed.

(** The array of groups is built from new objects: the objects that were
    there stay as they were, whatever the document is. *)
Lemma make_groups_subseteq prefix doc (h : heap) groups h3 :
  make_groups prefix doc h = Some (groups, h3) → h ⊆ h3.
Proof.
  unfold make_groups.
  destruct (alloc (group prefix (VStr all)) h) as [g0 h1] eqn:H1.
  destruct (alloc (OArr [g0]) h1) as [gs h2] eqn:H2.
  destruct (uniqueTags h2 doc) as [tags|]; [|done].
  destruct (for_each tags _ h2) as [s|] eqn:Hloop; [|done].
  intros [= <- <-].
  pose proof (alloc_subseteq _ _ _ _ H1) as Hs1.
  apply alloc_spec in H2 as (a & -> & Ha & ->).
  assert (h !! a = None) as Hha.
  { destruct (h !! a) eqn:E; [|done].
    by rewrite (lookup_weaken _ _ _ _ E Hs1) in Ha. }
  apply (for_each_inv (λ s : heap, h ⊆ s) _ _ _ _) in Hloop; [done| |].
  - intros tag s1 s2 _ Hs.
    destruct (alloc (group prefix tag) s1) as [g s1'] eqn:Hg.
    pose proof (alloc_subseteq _ _ _ _ Hg) as Hs'. simpl.
    destruct (s1' !! a) as [[|vs]|]; try done. intros [= <-].
    apply insert_subseteq_r; [done|]. by etrans.
  - etrans; [done|]. by apply insert_subseteq.
Qed.

(** The configuration route, with the stored document after it. *)
Lemma serveExpress_config self prefix req res (h : heap) l fs :
  swaggerJson self = VRef l →
  deep_value h (VRef l) (TObj fs) →
  conforming (TObj fs) = true →
  url req = "/v3/api-docs/swagger-config" →
  ∃ h1,
    serveExpress self prefix req res h
      = Returned
          (sent (VRef l)
             (prune (with_field (TObj fs) "urls"
                       (groups_text prefix (TObj fs))))
             (res_setHeader "Content-Type" "application/json" res))
          false h1
    ∧ deep_value h1 (VRef l)
        (with_field (TObj fs) "urls" (groups_text prefix (TObj fs))).
Proof.
  intros Hs Hd Hok Hu.
  destruct (make_groups_spec h h prefix (VRef l) fs (reflexivity h) Hd Hok)
    as (groups & h1 & hn & Hmk & He & Hg).
  unfold serveExpress. rewrite Hs, legacy_guard_ref, Hu.
  simpl String.eqb. cbv iota. rewrite Hmk.
  destruct (set_prop_document h h1 hn l fs "urls" groups
              (groups_text prefix (TObj fs)) Hd He)
    as (ps & h3 & Hl & -> & Hh3 & Hd3).
  { destruct He as [_ Hdisj]. by apply deep_value_new_part. }
  exists h3. split; [by apply res_json_spec|done].
Qed.

(** X7: for every stored value, prefix and request, the Express handler
    and the Koa handler of the legacy class are observed alike (the same
    status and text, or next called, or a failure), and whenever the
    Express handler returns, the Koa handler returns with the same
    continuation flag and the same heap. *)
Theorem legacy_handlers_agree self prefix req (h : heap) :
  observe_express (serveExpress self prefix req fresh_response h)
    = observe_koa (serveKoa self prefix req fresh_context h)
  ∧ ∀ res h1 nx, serveExpress self prefix req fresh_response h
                   = Returned res nx h1 →
      ∃ ctx, serveKoa self prefix req fresh_context h = Returned ctx nx h1.
Proof.
  unfold serveExpress, serveKoa, res_json.
  destruct (guard (swaggerJson self)).
  { destruct (alloc error_body h) as [e h1]. simpl.
    destruct (JSON_stringify h1 e); [|done]. split; [done|].
    intros res h2 nx [= <- <- <-]. eauto. }
  destruct (String.eqb (url req) "/v3/api-docs/swagger-config").
  { destruct (make_groups prefix (swaggerJson self) h) as [[groups h1]|];
      [|done].
    destruct (set_prop h1 (swaggerJson self) "urls" groups) as [h2|]; [|done].
    simpl. destruct (JSON_stringify h2 (swaggerJson self)); [|done].
    split; [done|]. intros res h3 nx [= <- <- <-]. eauto. }
  destruct (String.eqb (url req) "/swagger-resources").
  { destruct (make_groups prefix (swaggerJson self) h) as [[groups h1]|];
      [|done].
    simpl. destruct (JSON_stringify h1 groups); [|done].
    split; [done|]. intros res h3 nx [= <- <- <-]. eauto. }
  destruct (String.prefix "/api-docs/" (url req)).
  2:{ split; [done|]. intros res h3 nx [= <- <- <-]. eauto. }
  destruct (get_prop h (swaggerJson self) "paths") as [paths|]; [|done].
  destruct (alloc (OObj []) h) as [groupPaths h1].
  destruct (String.eqb (groupName_of req) all).
  { simpl. destruct (JSON_stringify h1 (swaggerJson self)); [|done].
    split; [done|]. intros res h3 nx [= <- <- <-]. eauto. }
  destruct (filter_paths groupPaths (groupName_of req) paths h1) as [h2|];
    [|done].
  destruct (set_prop h2 (swaggerJson self) "paths" groupPaths) as [h3|];
    [|done].
  simpl. destruct (JSON_stringify h3 (swaggerJson self)); [|done].
  split; [done|]. intros res h4 nx [= <- <- <-]. eauto.
Qed.

(** X8: when the stored value is null or not an object, the legacy
    handlers answer every request with status 500 and the body
    [{error, message}], whatever the prefix and the url; [next] is not
    called and the objects on the heap stay as they were. *)
Theorem legacy_non_object_gives_500 self res (h : heap) :
  is_object (swaggerJson self) = false →
  ∃ e h1, h ⊆ h1 ∧ ∀ prefix req,
    serveExpress self prefix req res h
      = Returned (sent e Current.error_text (res_status 500 res)) false h1
    ∧ serveKoa self prefix req fresh_context h
      = Returned (ctx_set_body e (ctx_set_status 500 fresh_context)) false h1
    ∧ observe_koa (serveKoa self prefix req fresh_context h)
      = Handled 500 Current.error_text.
Proof.
  intros Hv. destruct (alloc error_body h) as [e h1] eqn:Ha.
  exists e, h1. split; [by eapply alloc_subseteq|]. intros prefix req.
  assert (deep_value h1 e Current.error_text) as Hd.
  { apply (deep_value_alloc error_body h e h1 [TStr _; TStr _] Ha).
    repeat constructor; apply deep_value_str. }
  unfold serveExpress, serveKoa. rewrite (legacy_guard_not_ref _ Hv), Ha.
  split; [by apply (res_json_spec _ _ Current.error_text)|].
  split; [done|]. simpl.
  by rewrite (JSON_stringify_Some _ _ Current.error_text).
Qed.

(** X9: with a stored object, a request whose url is none of the two
    group routes and does not start with [/api-docs/] makes the legacy
    handlers call [next] and nothing else: the response and the heap are
    as they were, for any object, a circular one as well, and whatever the
    prefix is. *)
Theorem legacy_other_urls_call_next self prefix req res ctx (h : heap) l :
  swaggerJson self = VRef l →
  url req ≠ "/v3/api-docs/swagger-config" →
  url req ≠ "/swagger-resources" →
  String.prefix "/api-docs/" (url req) = false →
  serveExpress self prefix req res h = Returned res true h
  ∧ serveKoa self prefix req ctx h = Returned ctx true h.
Proof.
  intros Hs H1%String.eqb_neq H2%String.eqb_neq H3.
  unfold serveExpress, serveKoa.
  by rewrite Hs, legacy_guard_ref, H1, H2, H3.
Qed.

(** X10: a request under [/api-docs/] whose query has no groupName, an
    empty one, or "全部" is answered with the whole stored document,
    whatever follows [/api-docs/] in the url; the objects on the heap stay
    as they were.  No shape of [paths] is required. *)
Theorem legacy_all_is_the_default self prefix req res (h : heap) l fs :
  swaggerJson self = VRef l →
  deep_value h (VRef l) (TObj fs) →
  String.prefix "/api-docs/" (url req) = true →
  assoc_get (query req) "groupName" = None
  ∨ assoc_get (query req) "groupName" = Some ""
  ∨ assoc_get (query req) "groupName" = Some "全部" →
  (∃ h1, serveExpress self prefix req res h
           = Returned (sent (VRef l) (prune (TObj fs)) res) false h1
         ∧ h ⊆ h1)
  ∧ observe_koa (serveKoa self prefix req fresh_context h)
    = Handled 200 (prune (TObj fs)).
Proof.
  intros Hs Hd Hu Hq.
  assert (groupName_of req = all) as Hall.
  { unfold groupName_of. by destruct Hq as [->|[->| ->]]. }
  split; [by apply serveExpress_all|].
  rewrite legacy_observe_koa.
  destruct (serveExpress_all self prefix req h l fs Hs Hd Hu fresh_response
              Hall) as (h1 & -> & _).
  done.
Qed.

(** X11: a per-tag request replaces [paths] in the stored document, so
    the request for all that follows is answered with the filtered
    document, not with the one the adapter was given. *)
Theorem legacy_filter_persists self prefix reqT reqAll res (h : heap) l fs :
  swaggerJson self = VRef l →
  deep_value h (VRef l) (TObj fs) →
  conforming (TObj fs) = true →
  String.prefix "/api-docs/" (url reqT) = true →
  groupName_of reqT ≠ all →
  String.prefix "/api-docs/" (url reqAll) = true →
  groupName_of reqAll = all →
  ∃ h1 h2,
    serveExpress self prefix reqT res h
      = Returned
          (sent (VRef l)
             (prune (with_field (TObj fs) "paths"
                       (tagged_paths (groupName_of reqT)
                          (field (TObj fs) "paths")))) res)
          false h1
    ∧ deep_value h1 (VRef l)
        (with_field (TObj fs) "paths"
           (tagged_paths (groupName_of reqT) (field (TObj fs) "paths")))
    ∧ serveExpress self prefix reqAll res h1
      = Returned
          (sent (VRef l)
             (prune (with_field (TObj fs) "paths"
                       (tagged_paths (groupName_of reqT)
                          (field (TObj fs) "paths")))) res)
          false h2.
Proof.
  intros Hs Hd Hok HuT HgT HuA HgA.
  destruct (serveExpress_tag self prefix reqT h l fs Hs Hd HuT res Hok HgT)
    as (ps & g & h1 & Hrun & _ & _ & _ & Hd1).
  destruct (serveExpress_all self prefix reqAll h1 l _ Hs Hd1 HuA res HgA)
    as (h2 & Hrun2 & _).
  by exists h1, h2.
Qed.

(** X12: per-tag requests accumulate: after a request for the tag [g1],
    the answer to a request for the tag [g2] holds the operations of the
    document the adapter was given that carry both tags, and no other. *)
Theorem legacy_filters_accumulate self prefix req1 req2 res (h : heap) l fs :
  swaggerJson self = VRef l →
  deep_value h (VRef l) (TObj fs) →
  conforming (TObj fs) = true →
  String.prefix "/api-docs/" (url req1) = true →
  groupName_of req1 ≠ all →
  String.prefix "/api-docs/" (url req2) = true →
  groupName_of req2 ≠ all →
  ∃ res1 h1 paths2 h2,
    serveExpress self prefix req1 res h = Returned res1 false h1
    ∧ serveExpress self prefix req2 res h1
      = Returned
          (sent (VRef l) (prune (with_field (TObj fs) "paths" paths2)) res)
          false h2
    ∧ operations_of paths2
      = List.filter
          (λ o, bool_decide (groupName_of req1 ∈ operation_tags (snd o))
                && bool_decide (groupName_of req2 ∈ operation_tags (snd o)))
          (operations_of (field (TObj fs) "paths")).
Proof.
  intros Hs Hd Hok Hu1 Hg1 Hu2 Hg2.
  destruct (serveExpress_tag self prefix req1 h l fs Hs Hd Hu1 res Hok Hg1)
    as (ps & g & h1 & Hrun & _ & _ & _ & Hd1).
  rewrite with_field_obj in Hd1.
  destruct (serveExpress_tag self prefix req2 h1 l _ Hs Hd1 Hu2 res)
    as (ps' & g' & h2 & Hrun2 & _); [|done|].
  { unfold conforming. rewrite field_assoc_set.
    apply paths_ok_tagged_paths, Hok. }
  rewrite with_field_obj, field_assoc_set in Hrun2. rewrite assoc_set_set in Hrun2.
  eexists _, h1, _, h2. split; [exact Hrun|]. split; [exact Hrun2|].
  by rewrite !operations_of_tagged_paths, filter_filter_and.
Qed.

(** X13: the same per-tag request, made twice, is answered twice with the
    same document: the second filtering keeps what the first kept. *)
Theorem legacy_tag_request_twice self prefix req res (h : heap) l fs :
  swaggerJson self = VRef l →
  deep_value h (VRef l) (TObj fs) →
  conforming (TObj fs) = true →
  String.prefix "/api-docs/" (url req) = true →
  groupName_of req ≠ all →
  ∃ h1 h2,
    serveExpress self prefix req res h
      = Returned
          (sent (VRef l)
             (prune (with_field (TObj fs) "paths"
                       (tagged_paths (groupName_of req)
                          (field (TObj fs) "paths")))) res)
          false h1
    ∧ serveExpress self prefix req res h1
      = Returned
          (sent (VRef l)
             (prune (with_field (TObj fs) "paths"
                       (tagged_paths (groupName_of req)
                          (field (TObj fs) "paths")))) res)
          false h2.
Proof.
  intros Hs Hd Hok Hu Hg.
  destruct (serveExpress_tag self prefix req h l fs Hs Hd Hu res Hok Hg)
    as (ps & g & h1 & Hrun & _ & _ & _ & Hd1).
  rewrite with_field_obj in Hd1.
  destruct (serveExpress_tag self prefix req h1 l _ Hs Hd1 Hu res)
    as (ps' & g' & h2 & Hrun2 & _); [|done|].
  { unfold conforming. rewrite field_assoc_set.
    apply paths_ok_tagged_paths, Hok. }
  rewrite with_field_obj, field_assoc_set, tagged_paths_idemp in Hrun2.
  rewrite assoc_set_set in Hrun2.
  by exists h1, h2.
Qed.

(** X14: the configuration route writes the group list into the stored
    document: after it the document has the member [urls], the same
    request is answered with the same document again, and the request for
    all is answered with the document and its [urls]. *)
Theorem legacy_swagger_config_stores_urls self prefix req reqAll res
    (h : heap) l fs :
  swaggerJson self = VRef l →
  deep_value h (VRef l) (TObj fs) →
  conforming (TObj fs) = true →
  url req = "/v3/api-docs/swagger-config" →
  String.prefix "/api-docs/" (url reqAll) = true →
  groupName_of reqAll = all →
  ∃ text h1,
    text = prune (with_field (TObj fs) "urls" (groups_text prefix (TObj fs)))
    ∧ serveExpress self prefix req res h
      = Returned
          (sent (VRef l) text
             (res_setHeader "Content-Type" "application/json" res))
          false h1
    ∧ deep_value h1 (VRef l)
        (with_field (TObj fs) "urls" (groups_text prefix (TObj fs)))
    ∧ (∃ h2, serveExpress self prefix req res h1
             = Returned
                 (sent (VRef l) text
                    (res_setHeader "Content-Type" "application/json" res))
                 false h2)
    ∧ (∃ h2, serveExpress self prefix reqAll res h1
             = Returned (sent (VRef l) text res) false h2).
Proof.
  intros Hs Hd Hok Hu HuA HgA.
  destruct (serveExpress_config self prefix req res h l fs Hs Hd Hok Hu)
    as (h1 & Hrun & Hd1).
  eexists _, h1. split; [done|]. split; [exact Hrun|]. split; [done|].
  rewrite with_field_obj in Hd1 |- *. split.
  - destruct (serveExpress_config self prefix req res h1 l _ Hs Hd1)
      as (h2 & Hrun2 & _); [|done|].
    { unfold conforming.
      by rewrite (field_assoc_set_ne fs "urls" "paths"). }
    exists h2. rewrite Hrun2, !with_field_obj, assoc_set_set.
    unfold groups_text, all_tags.
    by rewrite (field_assoc_set_ne fs "urls" "paths").
  - destruct (serveExpress_all self prefix reqAll h1 l _ Hs Hd1 HuA res HgA)
      as (h2 & Hrun2 & _).
    by exists h2.
Qed.

(** X15: only the configuration route and the per-tag requests write to
    objects that exist: for every other request, whatever is stored, the
    objects that were on the heap before the call are there, unchanged,
    after it. *)
Theorem legacy_other_routes_only_allocate self prefix req res (h : heap) :
  url req ≠ "/v3/api-docs/swagger-config" →
  (String.prefix "/api-docs/" (url req) = true → groupName_of req = all) →
  match serveExpress self prefix req res h with
  | Returned _ _ h1 => h ⊆ h1
  | Threw => True
  end.
Proof.
  intros H1%String.eqb_neq Hall. unfold serveExpress, res_json.
  destruct (guard (swaggerJson self)).
  { destruct (alloc error_body h) as [e h1] eqn:Ha.
    pose proof (alloc_subseteq _ _ _ _ Ha).
    by destruct (JSON_stringify h1 e). }
  rewrite H1.
  destruct (String.eqb (url req) "/swagger-resources").
  { destruct (make_groups prefix (swaggerJson self) h) as [[groups h1]|] eqn:Hm;
      [|done].
    pose proof (make_groups_subseteq _ _ _ _ _ Hm).
    by destruct (JSON_stringify h1 groups). }
  destruct (String.prefix "/api-docs/" (url req)); [|done].
  destruct (get_prop h (swaggerJson self) "paths") as [paths|]; [|done].
  destruct (alloc (OObj []) h) as [groupPaths h1] eqn:Ha.
  pose proof (alloc_subseteq _ _ _ _ Ha).
  rewrite (Hall eq_refl), String.eqb_refl.
  by destruct (JSON_stringify h1 (swaggerJson self)).
Qed.

(** X16: constructed without an argument, the legacy adapter stores a new
    empty object: the group list has the group of all alone, and a
    per-tag request is answered with [{paths: {}}]. *)
Theorem legacy_default_construction prefix req res (h : heap) :
  let '(self, h1) := new VUndefined h in
  h ⊆ h1
  ∧ deep_value h1 (swaggerJson self) (TObj [])
  ∧ (url req = "/swagger-resources" →
     ∃ groups h2,
       serveExpress self prefix req res h1
         = Returned (sent groups (TArr [group_text prefix all]) res) false h2)
  ∧ (String.prefix "/api-docs/" (url req) = true →
     groupName_of req ≠ all →
     ∃ h2,
       serveExpress self prefix req res h1
         = Returned
             (sent (swaggerJson self) (TObj [("paths", TObj [])]) res)
             false h2).
Proof.
  unfold new. destruct (alloc (OObj []) h) as [o h1] eqn:Hal.
  pose proof (alloc_subseteq _ _ _ _ Hal) as Hsub.
  assert (deep_value h1 o (rebuild (OObj []) [])) as Hd.
  { apply (deep_value_alloc (OObj []) h o h1 [] Hal). constructor. }
  destruct (alloc_spec _ _ _ _ Hal) as (l & -> & _ & _). simpl in Hd.
  split; [done|]. split; [done|]. split.
  - intros Hu.
    destruct (make_groups_spec h1 h1 prefix (VRef l) [] (reflexivity h1) Hd
                eq_refl) as (groups & h2 & hn & Hmk & He & Hg).
    exists groups, h2. unfold serveExpress. simpl swaggerJson.
    rewrite legacy_guard_ref, Hu. simpl String.eqb. cbv iota. rewrite Hmk.
    apply (res_json_spec _ _ (TArr [group_text prefix all])).
    eapply deep_value_weaken; [|exact Hg]. by eapply extends_subseteq_new.
  - intros Hu Hg.
    destruct (serveExpress_tag {| swaggerJson := VRef l |} prefix req h1 l []
                eq_refl Hd Hu res eq_refl Hg) as (ps & g & h2 & Hrun & _).
    by exists h2.
Qed.

(** The group list route. *)
Lemma serveExpress_resources self prefix req res (h : heap) l fs :
  swaggerJson self = VRef l →
  deep_value h (VRef l) (TObj fs) →
  conforming (TObj fs) = true →
  url req = "/swagger-resources" →
  ∃ groups h1,
    serveExpress self prefix req res h
      = Returned (sent groups (groups_text prefix (TObj fs)) res) false h1.
Proof.
  intros Hs Hd Hok Hu.
  destruct (make_groups_spec h h prefix (VRef l) fs (reflexivity h) Hd Hok)
    as (groups & h1 & hn & Hmk & He & Hg).
  unfold serveExpress. rewrite Hs, legacy_guard_ref, Hu.
  simpl String.eqb. cbv iota. rewrite Hmk.
  exists groups, h1. rewrite <-(prune_groups_text prefix (TObj fs)).
  apply res_json_spec.
  eapply deep_value_weaken; [|done]. by eapply extends_subseteq_new.
Qed.

(** X17: a per-tag request shortens the group list: the list served after
    a request for the tag [g] has, besides the group of all, the tags of
    the operations that carry [g], each once; the groups of the other
    operations are gone. *)
Theorem legacy_groups_after_filter self prefix reqT reqG res (h : heap) l fs :
  swaggerJson self = VRef l →
  deep_value h (VRef l) (TObj fs) →
  conforming (TObj fs) = true →
  String.prefix "/api-docs/" (url reqT) = true →
  groupName_of reqT ≠ all →
  url reqG = "/swagger-resources" →
  ∃ res1 h1 tags groups h2,
    serveExpress self prefix reqT res h = Returned res1 false h1
    ∧ serveExpress self prefix reqG res h1
      = Returned
          (sent groups
             (TArr (group_text prefix all :: map (group_text prefix) tags))
             res)
          false h2
    ∧ NoDup tags
    ∧ ∀ tag, tag ∈ tags ↔
        ∃ o, o ∈ operations_of (field (TObj fs) "paths")
             ∧ groupName_of reqT ∈ operation_tags (snd o)
             ∧ tag ∈ operation_tags (snd o).
Proof.
  intros Hs Hd Hok HuT HgT HuG.
  destruct (serveExpress_tag self prefix reqT h l fs Hs Hd HuT res Hok HgT)
    as (ps & g & h1 & Hrun & _ & _ & _ & Hd1).
  rewrite with_field_obj in Hd1.
  destruct (serveExpress_resources self prefix reqG res h1 l _ Hs Hd1)
    as (groups & h2 & Hrun2); [|done|].
  { unfold conforming. rewrite field_assoc_set.
    apply paths_ok_tagged_paths, Hok. }
  eexists _, h1, _, groups, h2. split; [exact Hrun|]. split; [exact Hrun2|].
  match goal with |- NoDup (distinct ?ts) ∧ _ =>
    destruct (distinct_spec ts) as [Hnd Hin] end.
  split; [done|]. intros tag.
  rewrite Hin, all_tags_spec, field_assoc_set, operations_of_tagged_paths.
  split.
  - intros (o & Ho & Ht). exists o.
    apply list_elem_of_In, filter_In in Ho as [Ho Hc].
    apply bool_decide_eq_true in Hc. by rewrite list_elem_of_In.
  - intros (o & Ho & Hc & Ht). exists o. split; [|done].
    apply list_elem_of_In, filter_In. split; [by apply list_elem_of_In|].
    by apply bool_decide_eq_true.
Qed.
End legacy_extras.

(** * The further properties at example inputs *)

Section current_extras_witnesses.
Import Current Examples.

Lemma self_referencing_document_throws_witness :
  serveExpress proc small_doc "/doc" (get "/index.html") fresh_response
      circular_heap = Threw
  ∧ serveKoa proc small_doc "/doc" (get "/index.html") fresh_context
      circular_heap = Threw.
Proof.
  apply (self_referencing_document_throws proc small_doc "/doc"
           (get "/index.html") fresh_response fresh_context circular_heap 0
           (OObj [("self", VRef 0)])).
  - reflexivity.
  - reflexivity.
  - simpl. constructor.
Defined.

Lemma koa_swagger_json_is_copy_witness :
  ∃ b h1 hn,
    serveKoa proc small_doc "/doc" (get "/doc/swagger.json") fresh_context
        small_heap
      = Returned (ctx_set_body b fresh_context) false h1
    ∧ extends small_heap h1 hn ∧ deep_value hn b (prune small_text)
    ∧ b ≠ swaggerJson small_doc
    ∧ observe_koa
        (serveKoa proc small_doc "/doc" (get "/doc/swagger.json")
           fresh_context small_heap)
      = Handled 200 (prune small_text).
Proof.
  apply (koa_swagger_json_is_copy proc small_doc "/doc"
           (get "/doc/swagger.json") fresh_context small_heap 0 small_text).
  - reflexivity.
  - exists 1. vm_compute. reflexivity.
  - reflexivity.
Defined.

Lemma serves_the_live_document_witness :
  ∃ h' b h1,
    set_prop small_heap (VRef 0) "title" (VStr "t") = Some h'
    ∧ serveExpress proc small_doc "/doc" (get "/doc/swagger.json")
        fresh_response h'
      = Returned
          (sent b
             (prune (TObj (assoc_set [("openapi", TStr "3.0.0")] "title"
                             (TStr "t"))))
             fresh_response)
          false h1.
Proof.
  apply (serves_the_live_document proc small_doc "/doc"
           (get "/doc/swagger.json") fresh_response small_heap 0
           [("openapi", TStr "3.0.0")] "title" (VStr "t") (TStr "t")).
  - reflexivity.
  - exists 1. vm_compute. reflexivity.
  - exists 1. vm_compute. reflexivity.
  - reflexivity.
Defined.

Lemma answer_is_apart_from_stored_document_witness :
  ∃ b h1,
    serveExpress proc small_doc "/doc" (get "/doc/swagger.json")
        fresh_response small_heap
      = Returned (sent b (prune small_text) fresh_response) false h1
    ∧ ∀ k x h2, set_prop h1 b k x = Some h2 →
        deep_value h2 (VRef 0) small_text
        ∧ ∃ b' h3,
            serveExpress proc small_doc "/doc" (get "/doc/swagger.json")
              fresh_response h2
            = Returned (sent b' (prune small_text) fresh_response) false h3.
Proof.
  apply (answer_is_apart_from_stored_document proc small_doc "/doc"
           (get "/doc/swagger.json") fresh_response small_heap 0 small_text).
  - reflexivity.
  - exists 1. vm_compute. reflexivity.
  - reflexivity.
Defined.
End current_extras_witnesses.

Section legacy_extras_witnesses.
Import Legacy Examples.

Lemma legacy_non_object_gives_500_witness :
  ∃ e h1, ∅ ⊆ h1 ∧ ∀ prefix req,
    serveExpress legacy_null_doc prefix req fresh_response ∅
      = Returned
          (sent e Current.error_text (res_status 500 fresh_response))
          false h1
    ∧ serveKoa legacy_null_doc prefix req fresh_context ∅
      = Returned (ctx_set_body e (ctx_set_status 500 fresh_context)) false h1
    ∧ observe_koa (serveKoa legacy_null_doc prefix req fresh_context ∅)
      = Handled 500 Current.error_text.
Proof.
  apply (legacy_non_object_gives_500 legacy_null_doc fresh_response ∅).
  reflexivity.
Defined.

Lemma legacy_other_urls_call_next_witness :
  serveExpress ab_doc "/doc" (get "/index.html") fresh_response ab_heap
    = Returned fresh_response true ab_heap
  ∧ serveKoa ab_doc "/doc" (get "/index.html") fresh_context ab_heap
    = Returned fresh_context true ab_heap.
Proof.
  apply (legacy_other_urls_call_next ab_doc "/doc" (get "/index.html")
           fresh_response fresh_context ab_heap 7).
  - vm_compute. reflexivity.
  - discriminate.
  - discriminate.
  - reflexivity.
Defined.

Lemma legacy_all_is_the_default_witness :
  (∃ h1, serveExpress ab_doc "" (get "/api-docs/X") fresh_response ab_heap
           = Returned (sent (VRef 7) (prune ab_text) fresh_response) false h1
         ∧ ab_heap ⊆ h1)
  ∧ observe_koa (serveKoa ab_doc "" (get "/api-docs/X") fresh_context ab_heap)
    = Handled 200 (prune ab_text).
Proof.
  apply (legacy_all_is_the_default ab_doc "" (get "/api-docs/X")
           fresh_response ab_heap 7 _).
  - vm_compute. reflexivity.
  - exists 6. vm_compute. reflexivity.
  - reflexivity.
  - left. reflexivity.
Defined.

Lemma legacy_filter_persists_witness :
  ∃ h1 h2,
    serveExpress ab_doc "" get_X fresh_response ab_heap
      = Returned
          (sent (VRef 7)
             (prune (with_field ab_text "paths"
                       (tagged_paths (groupName_of get_X)
                          (field ab_text "paths")))) fresh_response)
          false h1
    ∧ deep_value h1 (VRef 7)
        (with_field ab_text "paths"
           (tagged_paths (groupName_of get_X) (field ab_text "paths")))
    ∧ serveExpress ab_doc "" get_all fresh_response h1
      = Returned
          (sent (VRef 7)
             (prune (with_field ab_text "paths"
                       (tagged_paths (groupName_of get_X)
                          (field ab_text "paths")))) fresh_response)
          false h2.
Proof.
  apply (legacy_filter_persists ab_doc "" get_X get_all fresh_response
           ab_heap 7 _).
  - vm_compute. reflexivity.
  - exists 6. vm_compute. reflexivity.
  - vm_compute. reflexivity.
  - reflexivity.
  - vm_compute. discriminate.
  - reflexivity.
  - reflexivity.
Defined.

Lemma legacy_filters_accumulate_witness :
  ∃ res1 h1 paths2 h2,
    serveExpress ab_doc "" get_X fresh_response ab_heap
      = Returned res1 false h1
    ∧ serveExpress ab_doc "" get_Y fresh_response h1
      = Returned
          (sent (VRef 7) (prune (with_field ab_text "paths" paths2))
             fresh_response)
          false h2
    ∧ operations_of paths2
      = List.filter
          (λ o, bool_decide (groupName_of get_X ∈ operation_tags (snd o))
                && bool_decide (groupName_of get_Y ∈ operation_tags (snd o)))
          (operations_of (field ab_text "paths")).
Proof.
  apply (legacy_filters_accumulate ab_doc "" get_X get_Y fresh_response
           ab_heap 7 _).
  - vm_compute. reflexivity.
  - exists 6. vm_compute. reflexivity.
  - vm_compute. reflexivity.
  - reflexivity.
  - vm_compute. discriminate.
  - reflexivity.
  - vm_compute. discriminate.
Defined.

Lemma legacy_tag_request_twice_witness :
  ∃ h1 h2,
    serveExpress ab_doc "" get_X fresh_response ab_heap
      = Returned
          (sent (VRef 7)
             (prune (with_field ab_text "paths"
                       (tagged_paths (groupName_of get_X)
                          (field ab_text "paths")))) fresh_response)
          false h1
    ∧ serveExpress ab_doc "" get_X fresh_response h1
      = Returned
          (sent (VRef 7)
             (prune (with_field ab_text "paths"
                       (tagged_paths (groupName_of get_X)
                          (field ab_text "paths")))) fresh_response)
          false h2.
Proof.
  apply (legacy_tag_request_twice ab_doc "" get_X fresh_response ab_heap 7 _).
  - vm_compute. reflexivity.
  - exists 6. vm_compute. reflexivity.
  - vm_compute. reflexivity.
  - reflexivity.
  - vm_compute. discriminate.
Defined.

Lemma legacy_swagger_config_stores_urls_witness :
  ∃ text h1,
    text = prune (with_field ab_text "urls" (groups_text "/doc" ab_text))
    ∧ serveExpress ab_doc "/doc" (get "/v3/api-docs/swagger-config")
        fresh_response ab_heap
      = Returned
          (sent (VRef 7) text
             (res_setHeader "Content-Type" "application/json" fresh_response))
          false h1
    ∧ deep_value h1 (VRef 7)
        (with_field ab_text "urls" (groups_text "/doc" ab_text))
    ∧ (∃ h2, serveExpress ab_doc "/doc" (get "/v3/api-docs/swagger-config")
               fresh_response h1
             = Returned
                 (sent (VRef 7) text
                    (res_setHeader "Content-Type" "application/json"
                       fresh_response))
                 false h2)
    ∧ (∃ h2, serveExpress ab_doc "/doc" get_all fresh_response h1
             = Returned (sent (VRef 7) text fresh_response) false h2).
Proof.
  apply (legacy_swagger_config_stores_urls ab_doc "/doc"
           (get "/v3/api-docs/swagger-config") get_all fresh_response
           ab_heap 7 _).
  - vm_compute. reflexivity.
  - exists 6. vm_compute. reflexivity.
  - vm_compute. reflexivity.
  - reflexivity.
  - reflexivity.
  - reflexivity.
Defined.

Lemma legacy_other_routes_only_allocate_witness :
  match
    serveExpress ab_doc "" (get "/swagger-resources") fresh_response ab_heap
  with
  | Returned _ _ h1 => ab_heap ⊆ h1
  | Threw => True
  end.
Proof.
  apply (legacy_other_routes_only_allocate ab_doc ""
           (get "/swagger-resources") fresh_response ab_heap).
  - discriminate.
  - discriminate.
Defined.
Lemma legacy_groups_after_filter_witness :
  ∃ res1 h1 tags groups h2,
    serveExpress ab_doc "/doc" get_X fresh_response ab_heap
      = Returned res1 false h1
    ∧ serveExpress ab_doc "/doc" (get "/swagger-resources") fresh_response h1
      = Returned
          (sent groups
             (TArr (group_text "/doc" all :: map (group_text "/doc") tags))
             fresh_response)
          false h2
    ∧ NoDup tags
    ∧ ∀ tag, tag ∈ tags ↔
        ∃ o, o ∈ operations_of (field ab_text "paths")
             ∧ groupName_of get_X ∈ operation_tags (snd o)
             ∧ tag ∈ operation_tags (snd o).
Proof.
  apply (legacy_groups_after_filter ab_doc "/doc" get_X
           (get "/swagger-resources") fresh_response ab_heap 7 _).
  - vm_compute. reflexivity.
  - exists 6. vm_compute. reflexivity.
  - vm_compute. reflexivity.
  - reflexivity.
  - vm_compute. discriminate.
  - reflexivity.
Defined.
End legacy_extras_witnesses.
